(** * Red-black tree insertion ([algo_and_ds/red_black_tree.py])

    A shallow embedding of the Python classes [RBNode] and [RedBlackTree].
    Python objects have identity and are mutated in place, and one sentinel
    object [NIL_LEAF] is shared by every empty child slot, so nodes live in a
    store indexed by references; the methods are written in a state monad
    whose results record a normal return, a raised exception, or the
    exhaustion of the recursion budget. *)

From Stdlib Require Import ZArith String Lia Sorted.
From stdpp Require Import base list sorting.

Open Scope Z_scope.

(** ** Data model *)

(** [class Shades(Enum)] *)
Inductive Shades := BLACK | RED.

Definition Shades_eqb (a b : Shades) : bool :=
  match a, b with
  | BLACK, BLACK | RED, RED => true
  | _, _ => false
  end.

(** A reference to an [RBNode] object: its index in the store. *)
Definition ref := nat.

(** [RBNode]: [value] is an int or [None]; [parent], [left] and [right] are
    node objects or [None]. *)
Record RBNode := mkRBNode {
  value : option Z;
  color : Shades;
  parent : option ref;
  left : option ref;
  right : option ref
}.

(** The store of node objects together with the two attributes of the one
    [RedBlackTree] instance under study ([self.count], [self.root]). *)
Record state := mkState {
  heap : list RBNode;
  count : Z;
  root : option ref
}.

(** The class attribute
    [NIL_LEAF = RBNode(value=None, color=Shades.BLACK, parent=None)]
    is the first object created. *)
Definition NIL_LEAF : ref := 0%nat.

Definition NIL_LEAF_object : RBNode := mkRBNode None BLACK None None None.

(** The store right after the class body ran, and a fresh
    [RedBlackTree()] ([count = 0], [root = None]). *)
Definition init : state := mkState [NIL_LEAF_object] 0 None.

(** ** Results and the monad *)

Inductive exn := TypeError | AttributeError | NotImplementedError | ValueError.

(** [OutOfFuel]: the recursion budget was exhausted. [Dangling]: a reference
    outside the store, which no Python execution produces. *)
Inductive res (A : Type) :=
| Ret (a : A)
| Raise (e : exn)
| OutOfFuel
| Dangling.

Arguments Ret {A} a.
Arguments Raise {A} e.
Arguments OutOfFuel {A}.
Arguments Dangling {A}.

Definition M (A : Type) : Type := state -> res A * state.

Definition ret {A} (a : A) : M A := fun s => (Ret a, s).

Definition bind {A B} (m : M A) (k : A -> M B) : M B :=
  fun s =>
    match m s with
    | (Ret a, s') => k a s'
    | (Raise e, s') => (Raise e, s')
    | (OutOfFuel, s') => (OutOfFuel, s')
    | (Dangling, s') => (Dangling, s')
    end.

Definition raise {A} (e : exn) : M A := fun s => (Raise e, s).

Definition out_of_fuel {A} : M A := fun s => (OutOfFuel, s).

Declare Scope py_scope.
Delimit Scope py_scope with py.
Notation "x <- m ;; k" := (bind m (fun x => k))
  (at level 100, m at next level, right associativity) : py_scope.
Notation "m ;;; k" := (bind m (fun _ => k))
  (at level 100, right associativity) : py_scope.
Open Scope py_scope.

(** ** Object access *)

Definition load (a : ref) : M RBNode :=
  fun s =>
    match heap s !! a with
    | Some n => (Ret n, s)
    | None => (Dangling, s)
    end.

(** Attribute access on a Python value that may be [None]. *)
Definition attr (o : option ref) : M RBNode :=
  match o with
  | None => raise AttributeError
  | Some a => load a
  end.

Definition store (a : ref) (n : RBNode) : M unit :=
  fun s => (Ret tt, mkState (<[a := n]> (heap s)) (count s) (root s)).

(** [RBNode(...)]: a new object gets the next free reference. *)
Definition alloc (n : RBNode) : M ref :=
  fun s => (Ret (length (heap s)), mkState (heap s ++ [n]) (count s) (root s)).

Definition with_left (x : option ref) (n : RBNode) : RBNode :=
  mkRBNode (value n) (color n) (parent n) x (right n).

Definition with_right (x : option ref) (n : RBNode) : RBNode :=
  mkRBNode (value n) (color n) (parent n) (left n) x.

Definition with_color (c : Shades) (n : RBNode) : RBNode :=
  mkRBNode (value n) c (parent n) (left n) (right n).

(** [o.left = x], [o.right = x], [o.color = c] *)
Definition set_left (o x : option ref) : M unit :=
  match o with
  | None => raise AttributeError
  | Some a => n <- load a ;; store a (with_left x n)
  end.

Definition set_right (o x : option ref) : M unit :=
  match o with
  | None => raise AttributeError
  | Some a => n <- load a ;; store a (with_right x n)
  end.

Definition set_color (o : option ref) (c : Shades) : M unit :=
  match o with
  | None => raise AttributeError
  | Some a => n <- load a ;; store a (with_color c n)
  end.

Definition get_root : M (option ref) := fun s => (Ret (root s), s).

Definition set_root (r : option ref) : M unit :=
  fun s => (Ret tt, mkState (heap s) (count s) r).

(** [self.count += 1] *)
Definition incr_count : M unit :=
  fun s => (Ret tt, mkState (heap s) (count s + 1) (root s)).

(** ** Comparisons on values *)

(** [a == b] on ints-or-[None]. *)
Definition pyeq (a b : option Z) : bool :=
  match a, b with
  | Some x, Some y => x =? y
  | None, None => true
  | _, _ => false
  end.

(** [a < b]: ordering an int against [None] raises [TypeError]. *)
Definition pylt (a b : option Z) : M bool :=
  match a, b with
  | Some x, Some y => ret (x <? y)
  | _, _ => raise TypeError
  end.

Definition is_None {A} (o : option A) : bool :=
  match o with
  | None => true
  | Some _ => false
  end.

(** ** [RBNode.__eq__] *)

Definition RBNode_eq (self : ref) (other : option ref) : M bool :=
  s <- load self ;;
  nil_both <- (if is_None (value s)
               then o <- attr other ;; ret (is_None (value o))
               else ret false) ;;
  if nil_both then ret true
  else
    o <- attr other ;;
    parents_are_same <-
      match parent s, parent o with
      | Some sp, Some op =>
          spn <- load sp ;;
          opn <- load op ;;
          ret (pyeq (value spn) (value opn)
               && Shades_eqb (color spn) (color opn))
      | None, None => ret true
      | _, _ => ret false
      end ;;
    ret (pyeq (value s) (value o)
         && Shades_eqb (color s) (color o)
         && parents_are_same).

(** [a == b] for a left operand that may be [None]: [None.__eq__] answers
    [NotImplemented] and Python falls back on the reflected [b.__eq__(None)]. *)
Definition py_node_eq (a : option ref) (b : ref) : M bool :=
  match a with
  | Some a' => RBNode_eq a' (Some b)
  | None => RBNode_eq b None
  end.

(** ** [RBNode.__iter__] and [RedBlackTree.__iter__]

    The generators are read off as the list they produce; [fuel] bounds the
    nesting of [yield from]. *)
Fixpoint RBNode_iter (fuel : nat) (self : ref) : M (list (option Z)) :=
  match fuel with
  | O => out_of_fuel
  | S fuel' =>
      n <- load self ;;
      l <- attr (left n) ;;
      ls <- (if is_None (value l) then ret []
             else match left n with
                  | Some a => RBNode_iter fuel' a
                  | None => raise AttributeError
                  end) ;;
      r <- attr (right n) ;;
      rs <- (if is_None (value r) then ret []
             else match right n with
                  | Some a => RBNode_iter fuel' a
                  | None => raise AttributeError
                  end) ;;
      ret (ls ++ value n :: rs)
  end.

Definition RedBlackTree_iter (fuel : nat) : M (list (option Z)) :=
  r <- get_root ;;
  match r with
  | None => ret []
  | Some a => RBNode_iter fuel a
  end.

(** ** [RedBlackTree._find_parent] *)

Fixpoint inner_find (fuel : nat) (v : Z) (p : ref) : M (ref * option string) :=
  match fuel with
  | O => out_of_fuel
  | S fuel' =>
      pn <- load p ;;
      if pyeq (Some v) (value pn) then ret (p, None)
      else
        lt <- pylt (Some v) (value pn) ;;
        if lt then
          l <- attr (left pn) ;;
          if is_None (value l) then ret (p, Some "L"%string)
          else match left pn with
               | Some a => inner_find fuel' v a
               | None => raise AttributeError
               end
        else
          r <- attr (right pn) ;;
          if is_None (value r) then ret (p, Some "R"%string)
          else match right pn with
               | Some a => inner_find fuel' v a
               | None => raise AttributeError
               end
  end.

Definition _find_parent (fuel : nat) (v : Z) : M (ref * option string) :=
  r <- get_root ;;
  match r with
  | None => raise AttributeError
  | Some a => inner_find fuel v a
  end.

(** ** Rotations

    The parameters are Python values, so each may be [None]; [to_recolor] is
    tested for truth, and an [RBNode] (which defines neither [__bool__] nor
    [__len__]) is always true. *)
Definition _right_rotation (A X B Y C to_recolor : option ref) : M unit :=
  set_left X A ;;;
  set_right X Y ;;;
  set_left Y B ;;;
  set_right Y C ;;;
  match to_recolor with
  | Some node =>
      set_color X BLACK ;;;
      set_color (Some node) RED ;;;
      set_color Y RED
  | None => ret tt
  end.

Definition _left_rotation (A X B Y C to_recolor : option ref) : M unit :=
  set_left Y X ;;;
  set_right Y C ;;;
  set_left X A ;;;
  set_right X B ;;;
  match to_recolor with
  | Some node =>
      set_color Y BLACK ;;;
      set_color (Some node) RED ;;;
      set_color X RED
  | None => ret tt
  end.

(** ** [_recolor]

    The function is declared in the class body as [def _recolor(node)],
    without a [self] parameter.  The call [self._recolor(grandfather)] is a
    bound-method call and hands over two positional arguments, so the
    interpreter raises [TypeError] before any statement of the body runs
    (the body would blacken both children of [node], redden [node] unless it
    is the root, and call [_try_rebalance] on it). *)
Definition _recolor (grandfather : ref) : M unit := raise TypeError.

(** ** [RedBlackTree._try_rebalance] *)

Definition _try_rebalance (node : ref) : M unit :=
  n <- load node ;;
  match parent n with
  | None => ret tt
  | Some p =>
      pn <- load p ;;
      match parent pn with
      | None => ret tt
      | Some grandfather =>
          if negb (Shades_eqb (color n) RED) || negb (Shades_eqb (color pn) RED)
          then ret tt
          else
            lt <- pylt (value n) (value pn) ;;
            let node_direction := if lt then "L"%string else "R"%string in
            gn <- load grandfather ;;
            same <- RBNode_eq p (left gn) ;;
            let parent_direction := if same then "L"%string else "R"%string in
            let uncle := if String.eqb node_direction "L"%string
                         then right gn else left gn in
            let general_direction := String.append parent_direction node_direction in
            is_nil <- py_node_eq uncle NIL_LEAF ;;
            black <- (if is_nil then ret true
                      else u <- attr uncle ;; ret (Shades_eqb (color u) BLACK)) ;;
            if black then
              if String.eqb general_direction "LL"%string then
                _right_rotation (Some node) (right pn) (Some p)
                                (Some grandfather) uncle (Some node)
              else if String.eqb general_direction "RR"%string then
                _left_rotation uncle (Some grandfather) (left pn)
                               (Some p) (Some node) (Some node)
              else if String.eqb general_direction "LR"%string then
                raise NotImplementedError
              else if String.eqb general_direction "RL"%string then
                raise NotImplementedError
              else raise ValueError
            else _recolor grandfather
      end
  end.

(** ** [RedBlackTree.add]

    The result is the value the call returns: [None] for the two bare
    [return] statements, the new node for the last one.  [add_after] is the
    part of the body that follows the call of [_find_parent]. *)
Definition add_after (v : Z) (found : ref * option string) : M (option ref) :=
  let '(p, node_direction) := found in
  match node_direction with
  | None => ret None
  | Some d =>
      new_node <- alloc (mkRBNode (Some v) RED (Some p)
                                  (Some NIL_LEAF) (Some NIL_LEAF)) ;;
      (if String.eqb d "L"%string
       then set_left (Some p) (Some new_node) else ret tt) ;;;
      (if String.eqb d "R"%string
       then set_right (Some p) (Some new_node) else ret tt) ;;;
      _try_rebalance new_node ;;;
      incr_count ;;;
      ret (Some new_node)
  end.

Definition add (fuel : nat) (v : Z) : M (option ref) :=
  r <- get_root ;;
  match r with
  | None =>
      a <- alloc (mkRBNode (Some v) BLACK None (Some NIL_LEAF) (Some NIL_LEAF)) ;;
      set_root (Some a) ;;;
      incr_count ;;;
      ret None
  | Some _ =>
      found <- _find_parent fuel v ;;
      add_after v found
  end.

(** Successive [add] calls on one tree, stopping at the first call that does
    not return; the list collects what the completed calls returned. *)
Fixpoint add_all (fuel : nat) (vs : list Z) (s : state)
  : res (list (option ref)) * state :=
  match vs with
  | [] => (Ret [], s)
  | v :: vs' =>
      match add fuel v s with
      | (Ret x, s') =>
          match add_all fuel vs' s' with
          | (Ret xs, s'') => (Ret (x :: xs), s'')
          | (Raise e, s'') => (Raise e, s'')
          | (OutOfFuel, s'') => (OutOfFuel, s'')
          | (Dangling, s'') => (Dangling, s'')
          end
      | (Raise e, s') => (Raise e, s')
      | (OutOfFuel, s') => (OutOfFuel, s')
      | (Dangling, s') => (Dangling, s')
      end
  end.

(** ** Sequences of calls *)

(** [calls s s']: [s'] is the state after some sequence of [add] calls
    started in [s], whatever each call did (returned, raised, or hit the
    recursion budget). *)
Inductive calls (s : state) : state -> Prop :=
| calls_refl : calls s s
| calls_step s1 fuel v r s2 :
    calls s s1 -> add fuel v s1 = (r, s2) -> calls s s2.

(** ** Predicates on states *)

(** The sentinel object is still black and still carries no value. *)
Definition nil_intact (s : state) : Prop :=
  exists n, heap s !! NIL_LEAF = Some n /\ value n = None /\ color n = BLACK.

(** No [parent] attribute and no tree root refers to the sentinel. *)
Definition parents_real (s : state) : Prop :=
  forall a n p, heap s !! a = Some n -> parent n = Some p -> p <> NIL_LEAF.

Definition sane (s : state) : Prop :=
  nil_intact s /\ parents_real s /\ root s <> Some NIL_LEAF.

(** [returned s]: [s] is reached from the fresh tree by [add] calls each of
    which returned. *)
Inductive returned : state -> Prop :=
| returned_init : returned init
| returned_add s fuel v x s1 :
    returned s -> add fuel v s = (Ret x, s1) -> returned s1.

(** The form of the reachable part of the store in such states: below the
    root, a descending spine of red nodes linked through [left], each with the
    sentinel as [right] child, and at most one red [right] child of the root,
    itself without children.  A spine is listed from the top as pairs of a
    reference and the value stored there. *)
Definition hd_ref (e : ref) (ls : list (ref * Z)) : ref :=
  match ls with
  | [] => e
  | (a, _) :: _ => a
  end.

(** [spine h p pv ls e]: the nodes [ls] hang below the node [p] (holding
    [pv]); the [left] attribute of the last one is [e]. *)
Fixpoint spine (h : list RBNode) (p : ref) (pv : Z) (ls : list (ref * Z))
    (e : ref) : Prop :=
  match ls with
  | [] => True
  | (a, av) :: ls' =>
      a <> NIL_LEAF /\ av < pv /\
      h !! a = Some (mkRBNode (Some av) RED (Some p)
                              (Some (hd_ref e ls')) (Some NIL_LEAF)) /\
      spine h a av ls' e
  end.

(** The last node of a spine below [p], or [p] itself. *)
Definition last_ref (p : ref) (ls : list (ref * Z)) : ref :=
  hd_ref p (rev ls).

Definition last_val (pv : Z) (ls : list (ref * Z)) : Z :=
  match rev ls with
  | [] => pv
  | (_, v) :: _ => v
  end.

(** The root's right child, if any, with the value it holds. *)
Definition leaf_ref (rc : option (ref * Z)) : ref :=
  match rc with
  | None => NIL_LEAF
  | Some (c, _) => c
  end.

Definition right_leaf (h : list RBNode) (r : ref) (rv : Z)
    (rc : option (ref * Z)) : Prop :=
  match rc with
  | None => True
  | Some (c, cv) =>
      c <> NIL_LEAF /\ rv < cv /\
      h !! c = Some (mkRBNode (Some cv) RED (Some r)
                              (Some NIL_LEAF) (Some NIL_LEAF))
  end.

Definition nil_plain (h : list RBNode) : Prop :=
  exists c0 l0 r0, h !! NIL_LEAF = Some (mkRBNode None c0 None l0 r0).

Definition shape_at (s : state) (r : ref) (rv : Z) (ls : list (ref * Z))
    (rc : option (ref * Z)) : Prop :=
  r <> NIL_LEAF /\
  (exists col, heap s !! r =
     Some (mkRBNode (Some rv) col None
                    (Some (hd_ref NIL_LEAF ls)) (Some (leaf_ref rc)))) /\
  spine (heap s) r rv ls NIL_LEAF /\
  right_leaf (heap s) r rv rc /\
  Z.of_nat (length ls) + match rc with Some _ => 1 | None => 0 end < count s.

Definition shape (s : state) : Prop :=
  nil_plain (heap s) /\
  match root s with
  | None => 0 <= count s
  | Some r => exists rv ls rc, shape_at s r rv ls rc
  end.

(** An outcome is settled when the call returned and left a state of that
    form, or raised. *)
Definition settled (out : res (option ref) * state) : Prop :=
  match out with
  | (Ret _, s1) => shape s1
  | (Raise _, _) => True
  | _ => False
  end.

(** What the descent of [inner_find] answers on a spine that starts at the
    node [a] holding [av]. *)
Fixpoint descend (v : Z) (a : ref) (av : Z) (ls : list (ref * Z))
  : ref * option string :=
  if v =? av then (a, None)
  else if v <? av then
    match ls with
    | [] => (a, Some "L"%string)
    | (b, bv) :: ls' => descend v b bv ls'
    end
  else (a, Some "R"%string).

(** A call that came to an end: it returned or it raised. *)
Definition halts {A} (o : res A) : Prop :=
  match o with
  | Ret _ | Raise _ => True
  | OutOfFuel | Dangling => False
  end.

(** Where [_find_parent] ends on a tree of that form. *)
Definition locate (v : Z) (r : ref) (rv : Z) (ls : list (ref * Z))
    (rc : option (ref * Z)) : ref * option string :=
  if v =? rv then (r, None)
  else if v <? rv then
    match ls with
    | [] => (r, Some "L"%string)
    | (a, av) :: ls' => descend v a av ls'
    end
  else
    match rc with
    | None => (r, Some "R"%string)
    | Some (c, cv) => descend v c cv []
    end.

(** The values an in-order walk meets: the spine bottom-up, the root, then
    the right child. *)
Definition spine_values (ls : list (ref * Z)) : list (option Z) :=
  rev (map (fun x => Some (snd x)) ls).

Definition walk (rv : Z) (ls : list (ref * Z)) (rc : option (ref * Z))
  : list (option Z) :=
  spine_values ls ++ Some rv ::
  match rc with
  | None => []
  | Some (_, cv) => [Some cv]
  end.

(** A method that only reads. *)
Definition readonly {A} (m : M A) : Prop := forall s, snd (m s) = s.

(** The state after [heap[a] = n], and after a new object [n] was created. *)
Definition upd (a : ref) (n : RBNode) (s : state) : state :=
  mkState (<[a := n]> (heap s)) (count s) (root s).

Definition push (n : RBNode) (s : state) : state :=
  mkState (heap s ++ [n]) (count s) (root s).

(** The state after [self.count += 1]. *)
Definition bump (s : state) : state :=
  mkState (heap s) (count s + 1) (root s).

(** ** [RBNode.has_children]

    [self.left.value is not None or self.right.value is not None]; the
    right operand is evaluated only when the left one is false. *)
Definition has_children (self : ref) : M bool :=
  n <- load self ;;
  l <- attr (left n) ;;
  if negb (is_None (value l)) then ret true
  else r <- attr (right n) ;; ret (negb (is_None (value r))).

(** ** Further predicates on states and walks *)


(** The order of the values an in-order walk yields. *)
Definition opt_lt (a b : option Z) : Prop :=
  match a, b with
  | Some x, Some y => x < y
  | _, _ => False
  end.

(** A predicate on states that no assignment to [left], [right] or [color]
    can break: it survives every write to an existing object that keeps the
    object's [value] and [parent]. *)
Definition stable (P : state -> Prop) : Prop :=
  forall s a n m,
    P s -> heap s !! a = Some m ->
    value n = value m -> parent n = parent m ->
    P (upd a n s).

(** [lands out x r rv ls rc]: the call returned the node [x] and left a
    tree of the reachable form with root [r] holding [rv], spine [ls] and
    right child [rc]. *)
Definition lands (out : res (option ref) * state) (x r : ref) (rv : Z)
    (ls : list (ref * Z)) (rc : option (ref * Z)) : Prop :=
  exists s1,
    out = (Ret (Some x), s1) /\ nil_plain (heap s1) /\
    root s1 = Some r /\ shape_at s1 r rv ls rc.

(** * Lemmas *)

Arguments pyeq : simpl never.
Arguments pylt : simpl never.

(** ** The monad *)

Lemma bind_keeps {A B} (P : state -> Prop) (m : M A) (k : A -> M B) s :
  P (snd (m s)) ->
  (forall a s', P s' -> P (snd (k a s'))) ->
  P (snd (bind m k s)).
Proof.
  intros Hm Hk. unfold bind. destruct (m s) as [[a| | |] s']; cbn in *; auto.
Qed.

Lemma bind_load_keeps {B} (P : state -> Prop) a (k : RBNode -> M B) s :
  P s ->
  (forall n, heap s !! a = Some n -> P (snd (k n s))) ->
  P (snd (bind (load a) k s)).
Proof.
  intros Hs Hk. unfold bind, load.
  destruct (heap s !! a) as [n|] eqn:E; cbn; auto.
Qed.

Lemma bind_readonly_keeps {A B} (P : state -> Prop) (m : M A) (k : A -> M B) s :
  readonly m -> P s ->
  (forall a, fst (m s) = Ret a -> P (snd (k a s))) ->
  P (snd (bind m k s)).
Proof.
  intros Hro Hs Hk. unfold bind. specialize (Hro s).
  destruct (m s) as [[a| | |] s']; cbn in *; subst; auto.
Qed.

Lemma readonly_ret {A} (a : A) : readonly (ret a).
Proof. intros s. reflexivity. Qed.

Lemma readonly_raise {A} e : readonly (@raise A e).
Proof. intros s. reflexivity. Qed.

Lemma readonly_load a : readonly (load a).
Proof. intros s. unfold load. destruct (heap s !! a); reflexivity. Qed.

Lemma readonly_attr o : readonly (attr o).
Proof. destruct o; [apply readonly_load | apply readonly_raise]. Qed.

Lemma readonly_bind {A B} (m : M A) (k : A -> M B) :
  readonly m -> (forall a, readonly (k a)) -> readonly (bind m k).
Proof.
  intros Hm Hk s. unfold bind. specialize (Hm s).
  destruct (m s) as [[a| | |] s']; cbn in *; subst; auto. apply Hk.
Qed.

Lemma readonly_pylt a b : readonly (pylt a b).
Proof. destruct a, b; cbn; first [apply readonly_ret | apply readonly_raise]. Qed.

Create HintDb ro.

#[local] Hint Resolve readonly_ret readonly_raise readonly_load readonly_attr
  readonly_pylt : ro.

Ltac ro :=
  repeat first
    [ apply readonly_bind; [| intros ?]
    | solve [auto with ro]
    | match goal with
      | |- readonly (if ?b then _ else _) => destruct b
      | |- readonly (match ?o with _ => _ end) => destruct o
      end ].

Lemma readonly_RBNode_eq a o : readonly (RBNode_eq a o).
Proof. unfold RBNode_eq. ro. Qed.

Lemma readonly_py_node_eq o b : readonly (py_node_eq o b).
Proof. destruct o; apply readonly_RBNode_eq. Qed.

Lemma readonly_get_root : readonly get_root.
Proof. intros s. reflexivity. Qed.

Lemma readonly_inner_find fuel v : forall p, readonly (inner_find fuel v p).
Proof.
  induction fuel as [|fuel IH]; intros p; cbn; [intros s; reflexivity|].
  ro; apply IH.
Qed.

Lemma readonly__find_parent fuel v : readonly (_find_parent fuel v).
Proof.
  unfold _find_parent. apply readonly_bind; [apply readonly_get_root|].
  intros [a|]; [apply readonly_inner_find | apply readonly_raise].
Qed.


(** ** The sentinel keeps its colour and its (absent) value *)

Lemma sane_upd s a n m :
  sane s -> heap s !! a = Some m ->
  value n = value m -> parent n = parent m ->
  (a = NIL_LEAF -> color n = BLACK) ->
  sane (upd a n s).
Proof.
  intros (Hnil & Hpar & Hroot) Ha Hv Hp Hc.
  unfold sane, nil_intact, parents_real, upd. cbn.
  split; [|split]; [| |exact Hroot].
  - destruct Hnil as (n0 & H0 & Hv0 & Hc0).
    destruct (decide (a = NIL_LEAF)) as [->|Hne].
    + exists n. split; [|split].
      * apply list_lookup_insert_eq. eapply lookup_lt_Some; eauto.
      * rewrite Hv. congruence.
      * auto.
    + exists n0. rewrite list_lookup_insert_ne by done. auto.
  - intros b n' p Hb Hpn.
    apply list_lookup_insert_Some in Hb as [(-> & <- & _)|(Hne & Hb)].
    + eapply Hpar; eauto. congruence.
    + eapply Hpar; eauto.
Qed.

Lemma sane_nil_black s m :
  sane s -> heap s !! NIL_LEAF = Some m -> color m = BLACK.
Proof. intros ((n0 & H0 & _ & Hc) & _) Hm. congruence. Qed.

Lemma set_left_sane o x s : sane s -> sane (snd (set_left o x s)).
Proof.
  intros Hs. destruct o as [a|]; cbn; [|exact Hs].
  apply bind_load_keeps; [exact Hs|]. intros n Hn. cbn.
  eapply sane_upd; eauto. intros ->. cbn. eapply sane_nil_black; eauto.
Qed.

Lemma set_right_sane o x s : sane s -> sane (snd (set_right o x s)).
Proof.
  intros Hs. destruct o as [a|]; cbn; [|exact Hs].
  apply bind_load_keeps; [exact Hs|]. intros n Hn. cbn.
  eapply sane_upd; eauto. intros ->. cbn. eapply sane_nil_black; eauto.
Qed.

Lemma set_color_sane o c s :
  sane s -> (c = RED -> o <> Some NIL_LEAF) -> sane (snd (set_color o c s)).
Proof.
  intros Hs Hc. destruct o as [a|]; cbn; [|exact Hs].
  apply bind_load_keeps; [exact Hs|]. intros n Hn. cbn.
  eapply sane_upd; eauto. intros ->. cbn.
  destruct c; [reflexivity|]. exfalso. apply Hc; reflexivity.
Qed.

Lemma _right_rotation_sane A X B Y C node s :
  node <> NIL_LEAF -> Y <> Some NIL_LEAF ->
  sane s -> sane (snd (_right_rotation A X B Y C (Some node) s)).
Proof.
  intros Hn HY Hs. unfold _right_rotation.
  repeat (apply bind_keeps; [|intros _ ? ?]);
    auto using set_left_sane, set_right_sane.
  - apply set_color_sane; [assumption | discriminate].
  - apply set_color_sane; [assumption | congruence].
  - apply set_color_sane; auto.
Qed.

Lemma _left_rotation_sane A X B Y C node s :
  node <> NIL_LEAF -> X <> Some NIL_LEAF ->
  sane s -> sane (snd (_left_rotation A X B Y C (Some node) s)).
Proof.
  intros Hn HX Hs. unfold _left_rotation.
  repeat (apply bind_keeps; [|intros _ ? ?]);
    auto using set_left_sane, set_right_sane.
  - apply set_color_sane; [assumption | discriminate].
  - apply set_color_sane; [assumption | congruence].
  - apply set_color_sane; auto.
Qed.

Lemma _try_rebalance_sane node s :
  node <> NIL_LEAF -> sane s -> sane (snd (_try_rebalance node s)).
Proof.
  intros Hnode Hs. unfold _try_rebalance.
  apply bind_load_keeps; [exact Hs|]. intros n Hn.
  destruct (parent n) as [p|]; [|exact Hs].
  apply bind_load_keeps; [exact Hs|]. intros pn Hp.
  destruct (parent pn) as [g|] eqn:Hg; [|exact Hs].
  assert (g <> NIL_LEAF) as Hgne by (destruct Hs as (_ & Hpar & _); eauto).
  destruct (_ || _); [exact Hs|].
  apply bind_readonly_keeps; [apply readonly_pylt | exact Hs |]. intros lt _.
  apply bind_load_keeps; [exact Hs|]. intros gn Hgn.
  apply bind_readonly_keeps; [apply readonly_RBNode_eq | exact Hs |]. intros same _.
  apply bind_readonly_keeps; [apply readonly_py_node_eq | exact Hs |]. intros is_nil _.
  apply bind_readonly_keeps; [| exact Hs |].
  { destruct is_nil; ro. }
  intros black _. destruct black; [|exact Hs].
  destruct lt, same; cbn; try exact Hs.
  - apply _right_rotation_sane; [assumption | congruence | assumption].
  - apply _left_rotation_sane; [assumption | congruence | assumption].
Qed.

Lemma bind_Ret_inv {A B} (m : M A) (k : A -> M B) s b s2 :
  bind m k s = (Ret b, s2) ->
  exists a s1, m s = (Ret a, s1) /\ k a s1 = (Ret b, s2).
Proof.
  unfold bind. destruct (m s) as [[a| | |] s1]; intros H; try discriminate.
  eauto.
Qed.

Lemma load_Ret_inv a s n s1 :
  load a s = (Ret n, s1) -> s1 = s /\ heap s !! a = Some n.
Proof.
  unfold load. destruct (heap s !! a); intros H; inversion H; auto.
Qed.

Lemma attr_Ret_inv o s n s1 :
  attr o s = (Ret n, s1) -> exists a, o = Some a /\ s1 = s /\ heap s !! a = Some n.
Proof.
  destruct o as [a|]; cbn; [|discriminate].
  intros H. apply load_Ret_inv in H as [-> H]. eauto.
Qed.

Lemma pylt_Ret_inv a b s lt s1 :
  pylt a b s = (Ret lt, s1) ->
  s1 = s /\ exists x y, a = Some x /\ b = Some y /\ lt = (x <? y).
Proof.
  destruct a as [x|], b as [y|]; cbn; intros H; inversion H.
  split; [reflexivity|]. exists x, y. auto.
Qed.

Lemma real_not_nil s a n :
  nil_intact s -> heap s !! a = Some n -> is_None (value n) = false ->
  a <> NIL_LEAF.
Proof.
  intros (n0 & H0 & Hv & _) Ha Hn ->.
  assert (n = n0) by congruence. subst. rewrite Hv in Hn. discriminate.
Qed.

Lemma inner_find_real fuel v :
  forall p s q d s1,
    nil_intact s -> p <> NIL_LEAF ->
    inner_find fuel v p s = (Ret (q, d), s1) -> q <> NIL_LEAF.
Proof.
  induction fuel as [|fuel IH]; intros p s q d s1 Hnil Hp H; cbn in H;
    [discriminate|].
  apply bind_Ret_inv in H as (pn & s2 & Hl & H).
  apply load_Ret_inv in Hl as [-> Hpn].
  destruct (pyeq _ _); [inversion H; subst; assumption|].
  apply bind_Ret_inv in H as (lt & s2 & Hlt & H).
  apply pylt_Ret_inv in Hlt as [-> _].
  destruct lt.
  - apply bind_Ret_inv in H as (l & s2 & Hl & H).
    apply attr_Ret_inv in Hl as (a & Ha & -> & Hl). rewrite Ha in H.
    destruct (is_None (value l)) eqn:E; [inversion H; subst; assumption|].
    eapply IH; [exact Hnil | | exact H]. eapply real_not_nil; eauto.
  - apply bind_Ret_inv in H as (r & s2 & Hr & H).
    apply attr_Ret_inv in Hr as (a & Ha & -> & Hr). rewrite Ha in H.
    destruct (is_None (value r)) eqn:E; [inversion H; subst; assumption|].
    eapply IH; [exact Hnil | | exact H]. eapply real_not_nil; eauto.
Qed.

Lemma sane_alloc s n :
  sane s -> (forall p, parent n = Some p -> p <> NIL_LEAF) ->
  sane (snd (alloc n s)) /\ length (heap s) <> NIL_LEAF.
Proof.
  intros (Hnil & Hpar & Hroot) Hn.
  assert (NIL_LEAF < length (heap s))%nat as Hlen.
  { destruct Hnil as (n0 & H0 & _). eapply lookup_lt_Some; eauto. }
  split; [|unfold NIL_LEAF in *; lia].
  unfold sane, nil_intact, parents_real. cbn. split; [|split]; [| |exact Hroot].
  - destruct Hnil as (n0 & H0 & Hv & Hc). exists n0.
    rewrite lookup_app_l by assumption. auto.
  - intros a n' p Ha Hp. apply lookup_app_Some in Ha as [Ha|[_ Ha]].
    + eauto.
    + apply list_lookup_singleton_Some in Ha as [_ <-]. auto.
Qed.

Lemma add_sane fuel v s : sane s -> sane (snd (add fuel v s)).
Proof.
  intros Hs. unfold add.
  apply bind_readonly_keeps; [apply readonly_get_root | exact Hs |].
  intros r Hr. cbn in Hr. injection Hr as <-.
  destruct (root s) as [rt|] eqn:Hroot.
  - apply bind_readonly_keeps; [apply readonly__find_parent | exact Hs |].
    intros [p d] Hfind. unfold add_after. destruct d as [d|]; [|exact Hs].
    assert (p <> NIL_LEAF) as Hp.
    { unfold _find_parent, bind, get_root in Hfind. rewrite Hroot in Hfind.
      destruct (inner_find fuel v rt s) as [x s1] eqn:E. cbn in Hfind. subst x.
      eapply inner_find_real; [apply Hs | | exact E].
      destruct Hs as (_ & _ & Hrt). congruence. }
    match goal with |- context [alloc ?n] => 
      destruct (sane_alloc s n Hs) as [Ha Hlen] end.
    { cbn. intros p0 [= <-]. exact Hp. }
    unfold bind at 1. cbn [alloc].
    repeat (apply bind_keeps; [|intros _ ? ?]); auto.
    + destruct (String.eqb d "L"); [apply set_left_sane|]; assumption.
    + destruct (String.eqb d "R"); [apply set_right_sane|]; assumption.
    + apply _try_rebalance_sane; assumption.
  - match goal with |- context [alloc ?n] => 
      destruct (sane_alloc s n Hs) as [Ha Hlen] end.
    { cbn. discriminate. }
    unfold bind, alloc, set_root, incr_count, ret. cbn.
    destruct Ha as (H1 & H2 & H3). split; [|split]; cbn; auto. congruence.
Qed.

Lemma sane_init : sane init.
Proof.
  split; [|split].
  - exists NIL_LEAF_object. auto.
  - intros a n p Ha Hp. apply list_lookup_singleton_Some in Ha as [_ <-].
    discriminate.
  - discriminate.
Qed.

Lemma calls_sane s s1 : calls s s1 -> sane s -> sane s1.
Proof.
  induction 1 as [|s1 fuel v r s2 _ IH Hadd]; intros Hs; [assumption|].
  specialize (add_sane fuel v s1 (IH Hs)). rewrite Hadd. auto.
Qed.

(** ** Running the methods on a described store *)

Arguments upd : simpl never.
Arguments push : simpl never.

Lemma heap_upd_eq a n s :
  (a < length (heap s))%nat -> heap (upd a n s) !! a = Some n.
Proof. intros H. unfold upd. cbn. by apply list_lookup_insert_eq. Qed.

Lemma heap_upd_ne a b n s : a <> b -> heap (upd a n s) !! b = heap s !! b.
Proof. intros H. unfold upd. cbn. by apply list_lookup_insert_ne. Qed.

Lemma length_upd a n s : length (heap (upd a n s)) = length (heap s).
Proof. unfold upd. cbn. apply length_insert. Qed.

Lemma heap_push_old a n s :
  (a < length (heap s))%nat -> heap (push n s) !! a = heap s !! a.
Proof. intros H. unfold push. cbn. by apply lookup_app_l. Qed.

Lemma heap_push_new n s : heap (push n s) !! length (heap s) = Some n.
Proof.
  unfold push. cbn. rewrite lookup_app_r by lia.
  by rewrite Nat.sub_diag.
Qed.

Lemma length_push n s : length (heap (push n s)) = S (length (heap s)).
Proof. unfold push. cbn. rewrite length_app. cbn. lia. Qed.

Lemma root_upd a n s : root (upd a n s) = root s.
Proof. reflexivity. Qed.

Lemma count_upd a n s : count (upd a n s) = count s.
Proof. reflexivity. Qed.

Lemma root_push n s : root (push n s) = root s.
Proof. reflexivity. Qed.

Lemma count_push n s : count (push n s) = count s.
Proof. reflexivity. Qed.

Lemma run_ret {A B} (a : A) (k : A -> M B) s : bind (ret a) k s = k a s.
Proof. reflexivity. Qed.

Lemma run_bind {A B} (m : M A) (k : A -> M B) s a s1 :
  m s = (Ret a, s1) -> bind m k s = k a s1.
Proof. intros H. unfold bind. by rewrite H. Qed.

Lemma run_assoc {A B C} (m : M A) (k1 : A -> M B) (k2 : B -> M C) s :
  bind (bind m k1) k2 s = bind m (fun a => bind (k1 a) k2) s.
Proof. unfold bind. by destruct (m s) as [[a| | |] s1]. Qed.

Lemma run_bind_raise {A B} (m : M A) (k : A -> M B) s e s1 :
  m s = (Raise e, s1) -> bind m k s = (Raise e, s1).
Proof. intros H. unfold bind. by rewrite H. Qed.

Lemma run_raise {A B} e (k : A -> M B) s : bind (raise e) k s = (Raise e, s).
Proof. reflexivity. Qed.

Lemma run_load a n s : heap s !! a = Some n -> load a s = (Ret n, s).
Proof. intros H. unfold load. by rewrite H. Qed.

Lemma run_set_left a x n s :
  heap s !! a = Some n ->
  set_left (Some a) x s = (Ret tt, upd a (with_left x n) s).
Proof. intros H. unfold set_left, bind, load. by rewrite H. Qed.

Lemma run_set_right a x n s :
  heap s !! a = Some n ->
  set_right (Some a) x s = (Ret tt, upd a (with_right x n) s).
Proof. intros H. unfold set_right, bind, load. by rewrite H. Qed.

Lemma run_set_color a c n s :
  heap s !! a = Some n ->
  set_color (Some a) c s = (Ret tt, upd a (with_color c n) s).
Proof. intros H. unfold set_color, bind, load. by rewrite H. Qed.

Lemma run_alloc n s : alloc n s = (Ret (length (heap s)), push n s).
Proof. reflexivity. Qed.

Lemma pyeq_refl a : pyeq a a = true.
Proof. destruct a; cbn; [apply Z.eqb_refl | reflexivity]. Qed.

Lemma Shades_eqb_refl c : Shades_eqb c c = true.
Proof. by destruct c. Qed.

(** Lookups in a store built by [upd] and [push] over a described one. *)
Ltac store_len :=
  rewrite ?length_upd, ?length_push;
  first [ lia | eapply lookup_lt_Some; eassumption
        | apply Nat.lt_lt_succ_r; eapply lookup_lt_Some; eassumption ].

Ltac ref_ne :=
  first [ assumption | apply not_eq_sym; assumption | congruence | lia ].

Ltac store_lookup :=
  repeat first
    [ rewrite heap_upd_ne by ref_ne
    | rewrite heap_upd_eq by store_len
    | rewrite heap_push_new
    | rewrite heap_push_old by store_len ];
  cbn [value color parent left right with_left with_right with_color];
  first [ eassumption | reflexivity | symmetry; eassumption ].

Ltac norm :=
  cbv beta;
  cbn [value color parent left right attr with_left with_right with_color
       is_None negb orb andb Shades_eqb fst snd py_node_eq].

Ltac run1 :=
  first
    [ rewrite run_ret
    | rewrite run_assoc
    | rewrite run_raise
    | erewrite (run_bind (load _)) by (apply run_load; store_lookup)
    | erewrite (run_bind (set_left _ _)) by (apply run_set_left; store_lookup)
    | erewrite (run_bind (set_right _ _)) by (apply run_set_right; store_lookup)
    | erewrite (run_bind (set_color _ _)) by (apply run_set_color; store_lookup)
    | erewrite run_set_color by store_lookup
    | erewrite run_set_left by store_lookup
    | erewrite run_set_right by store_lookup
    | erewrite run_load by store_lookup ];
  norm.

Ltac run := norm; repeat run1.

Lemma RBNode_eq_self s a v c p pv pc pp pl pr l r :
  heap s !! a = Some (mkRBNode (Some v) c (Some p) l r) ->
  heap s !! p = Some (mkRBNode pv pc pp pl pr) ->
  RBNode_eq a (Some a) s = (Ret true, s).
Proof.
  intros Ha Hp. unfold RBNode_eq. run.
  by rewrite !pyeq_refl, !Shades_eqb_refl.
Qed.

Lemma RBNode_eq_nil_nil s c0 l0 r0 :
  heap s !! NIL_LEAF = Some (mkRBNode None c0 None l0 r0) ->
  RBNode_eq NIL_LEAF (Some NIL_LEAF) s = (Ret true, s).
Proof. intros H0. unfold RBNode_eq. run. reflexivity. Qed.

Lemma RBNode_eq_real_nil s a v c pa l r c0 l0 r0 :
  heap s !! a = Some (mkRBNode (Some v) c pa l r) ->
  heap s !! NIL_LEAF = Some (mkRBNode None c0 None l0 r0) ->
  RBNode_eq a (Some NIL_LEAF) s = (Ret false, s).
Proof.
  intros Ha H0. unfold RBNode_eq. run. destruct pa; run; reflexivity.
Qed.

Lemma RBNode_eq_other_value s a v c pa l r pan b w c' pb l' r' pbn :
  heap s !! a = Some (mkRBNode (Some v) c (Some pa) l r) ->
  heap s !! b = Some (mkRBNode (Some w) c' (Some pb) l' r') ->
  heap s !! pa = Some pan -> heap s !! pb = Some pbn ->
  v <> w ->
  RBNode_eq a (Some b) s = (Ret false, s).
Proof.
  intros Ha Hb Hpa Hpb Hne. unfold RBNode_eq. run.
  replace (pyeq (Some v) (Some w)) with false; [reflexivity|].
  symmetry. by apply Z.eqb_neq.
Qed.

(** A red uncle sends [_try_rebalance] into the call of [_recolor]. *)
Lemma _try_rebalance_red_uncle s node v nl nr p pv pl pr g gn same
    u uv up ul ur c0 l0 r0 :
  heap s !! node = Some (mkRBNode (Some v) RED (Some p) nl nr) ->
  heap s !! p = Some (mkRBNode (Some pv) RED (Some g) pl pr) ->
  heap s !! g = Some gn ->
  RBNode_eq p (left gn) s = (Ret same, s) ->
  (if v <? pv then right gn else left gn) = Some u ->
  heap s !! u = Some (mkRBNode (Some uv) RED up ul ur) ->
  heap s !! NIL_LEAF = Some (mkRBNode None c0 None l0 r0) ->
  _try_rebalance node s = (Raise TypeError, s).
Proof.
  intros Hn Hp Hg Hsame Hu Hun H0. unfold _try_rebalance. run.
  unfold pylt. run.
  erewrite (run_bind (RBNode_eq _ _)) by eassumption.
  assert ((if String.eqb (if v <? pv then "L" else "R") "L"
           then right gn else left gn) = Some u) as ->
    by (destruct (v <? pv); exact Hu).
  norm.
  erewrite (run_bind (RBNode_eq _ _)) by (eapply RBNode_eq_real_nil; eassumption).
  run. reflexivity.
Qed.

(** The parent is the root: nothing to do. *)
Lemma _try_rebalance_root_child s node n p pn :
  heap s !! node = Some n -> parent n = Some p ->
  heap s !! p = Some pn -> parent pn = None ->
  _try_rebalance node s = (Ret tt, s).
Proof.
  intros Hn Hp Hpn Hpp. unfold _try_rebalance. run. rewrite Hp. run.
  rewrite Hpp. reflexivity.
Qed.

(** Outer case on the left with the sentinel both as uncle and as the
    parent's right child: the call rotates, which rewires the sentinel and
    leaves the links between the real nodes as they were. *)
Lemma _try_rebalance_LL s node v nl nr p pv pl g gv gc gp c0 l0 r0 :
  heap s !! node = Some (mkRBNode (Some v) RED (Some p) nl nr) ->
  heap s !! p = Some (mkRBNode (Some pv) RED (Some g) pl (Some NIL_LEAF)) ->
  heap s !! g = Some (mkRBNode (Some gv) gc gp (Some p) (Some NIL_LEAF)) ->
  heap s !! NIL_LEAF = Some (mkRBNode None c0 None l0 r0) ->
  v < pv -> node <> NIL_LEAF -> g <> NIL_LEAF -> node <> g ->
  exists s1,
    _try_rebalance node s = (Ret tt, s1) /\
    count s1 = count s /\ root s1 = root s /\
    length (heap s1) = length (heap s) /\
    heap s1 !! NIL_LEAF = Some (mkRBNode None BLACK None (Some node) (Some g)) /\
    heap s1 !! g = Some (mkRBNode (Some gv) RED gp (Some p) (Some NIL_LEAF)) /\
    forall a, a <> NIL_LEAF -> a <> g -> heap s1 !! a = heap s !! a.
Proof.
  intros Hn Hp Hg H0 Hlt Hn0 Hg0 Hng.
  eexists. split.
  - unfold _try_rebalance. run. unfold pylt. run.
    rewrite (proj2 (Z.ltb_lt v pv) Hlt).
    erewrite (run_bind (RBNode_eq _ _)) by (eapply RBNode_eq_self; eassumption).
    cbn [String.eqb Ascii.eqb Bool.eqb]. norm.
    erewrite (run_bind (RBNode_eq _ _)) by (eapply RBNode_eq_nil_nil; eassumption).
    run. cbn [String.append String.eqb Ascii.eqb Bool.eqb].
    unfold _right_rotation. run. reflexivity.
  - rewrite !count_upd, !root_upd, !length_upd.
    repeat split; try store_lookup.
    intros a Ha0 Hag. destruct (decide (a = node)) as [->|Han].
    + store_lookup.
    + store_lookup.
Qed.

(** Outer case on the right with the sentinel as uncle and as the parent's
    left child: the rotation hangs the grandfather below the parent and
    empties both child slots of the grandfather, which every link from above
    still reaches. *)
Lemma _try_rebalance_RR s node v nl nr p pv pr g gv gc gp gr c0 l0 r0 :
  heap s !! node = Some (mkRBNode (Some v) RED (Some p) nl nr) ->
  heap s !! p = Some (mkRBNode (Some pv) RED (Some g) (Some NIL_LEAF) pr) ->
  heap s !! g = Some (mkRBNode (Some gv) gc gp (Some NIL_LEAF) gr) ->
  heap s !! NIL_LEAF = Some (mkRBNode None c0 None l0 r0) ->
  pv <= v -> p <> NIL_LEAF -> g <> NIL_LEAF -> node <> g -> node <> p -> p <> g ->
  exists s1,
    _try_rebalance node s = (Ret tt, s1) /\
    count s1 = count s /\ root s1 = root s /\
    length (heap s1) = length (heap s) /\
    heap s1 !! g = Some (mkRBNode (Some gv) RED gp
                                  (Some NIL_LEAF) (Some NIL_LEAF)) /\
    forall a, a <> p -> a <> g -> heap s1 !! a = heap s !! a.
Proof.
  intros Hn Hp Hg H0 Hle Hp0 Hg0 Hng Hnp Hpg.
  eexists. split.
  - unfold _try_rebalance. run. unfold pylt. run.
    rewrite (proj2 (Z.ltb_ge v pv) Hle).
    erewrite (run_bind (RBNode_eq _ _)) by (eapply RBNode_eq_real_nil; eassumption).
    cbn [String.eqb Ascii.eqb Bool.eqb]. norm.
    erewrite (run_bind (RBNode_eq _ _)) by (eapply RBNode_eq_nil_nil; eassumption).
    run. cbn [String.append String.eqb Ascii.eqb Bool.eqb].
    unfold _left_rotation. run. reflexivity.
  - rewrite !count_upd, !root_upd, !length_upd.
    repeat split; try store_lookup.
    intros a Hap Hag. destruct (decide (a = node)) as [->|Han]; store_lookup.
Qed.

(** ** Spines *)

Lemma spine_frame h h1 ls : forall p pv e,
  (forall a av, In (a, av) ls -> h1 !! a = h !! a) ->
  spine h p pv ls e -> spine h1 p pv ls e.
Proof.
  induction ls as [|[a av] ls IH]; intros p pv e Hfr Hsp; cbn in *; [done|].
  destruct Hsp as (Ha & Hlt & Hrec & Hsp).
  split; [done|]. split; [done|]. split.
  - rewrite (Hfr a av) by (by left). done.
  - apply IH; [|done]. intros b bv Hin. apply (Hfr b bv). by right.
Qed.

Lemma spine_in h ls : forall p pv e a av,
  spine h p pv ls e -> In (a, av) ls ->
  a <> NIL_LEAF /\ av < pv /\
  exists pa l, h !! a = Some (mkRBNode (Some av) RED (Some pa)
                                       (Some l) (Some NIL_LEAF)).
Proof.
  induction ls as [|[b bv] ls IH]; intros p pv e a av Hsp Hin; cbn in *; [done|].
  destruct Hsp as (Hb & Hlt & Hrec & Hsp).
  destruct Hin as [[= -> ->]|Hin].
  - eauto 6.
  - destruct (IH _ _ _ _ _ Hsp Hin) as (? & ? & ?).
    split; [done|]. split; [lia | done].
Qed.

Lemma last_ref_snoc p ls a av : last_ref p (ls ++ [(a, av)]) = a.
Proof. unfold last_ref. by rewrite rev_unit. Qed.

Lemma last_val_snoc pv ls a av : last_val pv (ls ++ [(a, av)]) = av.
Proof. unfold last_val. by rewrite rev_unit. Qed.

Lemma last_ref_cons p a av ls : last_ref p ((a, av) :: ls) = last_ref a ls.
Proof.
  destruct ls as [|x ls _] using rev_ind; [reflexivity|]. destruct x as [b bv].
  rewrite app_comm_cons. by rewrite !last_ref_snoc.
Qed.

Lemma last_val_cons pv a av ls : last_val pv ((a, av) :: ls) = last_val av ls.
Proof.
  destruct ls as [|x ls _] using rev_ind; [reflexivity|]. destruct x as [b bv].
  rewrite app_comm_cons. by rewrite !last_val_snoc.
Qed.

Lemma hd_ref_app e l1 l2 : hd_ref e (l1 ++ l2) = hd_ref (hd_ref e l2) l1.
Proof. by destruct l1 as [|[? ?] ?]. Qed.

Lemma spine_app h l1 : forall p pv l2 e,
  spine h p pv (l1 ++ l2) e <->
  spine h p pv l1 (hd_ref e l2) /\
  spine h (last_ref p l1) (last_val pv l1) l2 e.
Proof.
  induction l1 as [|[a av] l1 IH]; intros p pv l2 e; cbn [app spine].
  - cbn. tauto.
  - rewrite IH, hd_ref_app, last_ref_cons, last_val_cons. tauto.
Qed.

(** ** The descent on a spine *)

Lemma inner_find_spine s v c0 l0 r0 ls : forall a av p pv fuel,
  heap s !! NIL_LEAF = Some (mkRBNode None c0 None l0 r0) ->
  spine (heap s) p pv ((a, av) :: ls) NIL_LEAF ->
  inner_find fuel v a s = (Ret (descend v a av ls), s) \/
  ((fuel <= length ls)%nat /\ inner_find fuel v a s = (OutOfFuel, s)).
Proof.
  induction ls as [|[b bv] ls IH]; intros a av p pv fuel H0 Hsp;
    (destruct fuel as [|fuel]; [right; split; [cbn; lia | reflexivity]|]);
    destruct Hsp as (Ha & Hav & Hrec & Hsp); cbn [inner_find descend];
    run; unfold pyeq; destruct (v =? av); try (left; reflexivity);
    unfold pylt; run; destruct (v <? av); run; try (left; reflexivity).
  destruct (IH b bv a av fuel H0 Hsp) as [H|[Hle H]].
  - left. destruct Hsp as (Hb & Hbv & Hrecb & Hsp).
    cbn [hd_ref] in Hrec. run. exact H.
  - right. split; [cbn; lia|]. destruct Hsp as (Hb & Hbv & Hrecb & Hsp).
    cbn [hd_ref] in Hrec. run. exact H.
Qed.

Lemma descend_spec v ls : forall a av,
  (exists l1 x xv l2,
      (a, av) :: ls = l1 ++ (x, xv) :: l2 /\
      ((v = xv /\ descend v a av ls = (x, None)) \/
       (xv < v /\ descend v a av ls = (x, Some "R"%string)))) \/
  (v < last_val av ls /\
   descend v a av ls = (last_ref a ls, Some "L"%string)).
Proof.
  induction ls as [|[b bv] ls IH]; intros a av; cbn [descend].
  - destruct (Z.eqb_spec v av) as [->|Hne].
    { left. exists [], a, av, []. auto. }
    destruct (Z.ltb_spec v av).
    + right. auto.
    + left. exists [], a, av, []. split; [done|]. right. split; [lia | done].
  - destruct (Z.eqb_spec v av) as [->|Hne].
    { left. exists [], a, av, ((b, bv) :: ls). auto. }
    destruct (Z.ltb_spec v av).
    + rewrite last_val_cons, last_ref_cons.
      destruct (IH b bv) as [(l1 & x & xv & l2 & Heq & Hres)|Hres]; [|by right].
      left. exists ((a, av) :: l1), x, xv, l2. split; [|done].
      cbn. by rewrite Heq.
    + left. exists [], a, av, ((b, bv) :: ls). split; [done|].
      right. split; [lia | done].
Qed.

(** ** [add] on a state of the reachable form *)

Lemma heap_bump s : heap (bump s) = heap s.
Proof. reflexivity. Qed.

Lemma run_incr_count s : incr_count s = (Ret tt, bump s).
Proof. reflexivity. Qed.

Ltac start_after :=
  unfold add_after; cbn [String.eqb Ascii.eqb Bool.eqb];
  erewrite (run_bind (alloc _)) by apply run_alloc;
  run.

Ltac finish_after :=
  erewrite (run_bind incr_count) by apply run_incr_count;
  unfold ret, settled.

Lemma spine_last_le h ls : forall p pv e a av,
  spine h p pv ls e -> In (a, av) ls -> last_val pv ls <= av.
Proof.
  induction ls as [|[b bv] ls IH]; intros p pv e a av Hsp Hin; [done|].
  destruct Hsp as (_ & _ & _ & Hsp). rewrite last_val_cons.
  destruct Hin as [[= -> ->]|Hin]; [|by eapply IH].
  destruct ls as [|[c cv] ls1 _] using rev_ind; [cbn; lia|].
  rewrite last_val_snoc.
  assert (In (c, cv) (ls1 ++ [(c, cv)])) as Hc by (apply in_or_app; right; by left).
  destruct (spine_in _ _ _ _ _ _ _ Hsp Hc) as (_ & ? & _). lia.
Qed.

(** The node at a given place of a spine, and the node above it. *)
Lemma spine_split h r rv col rr l1 x xv l2 :
  h !! r = Some (mkRBNode (Some rv) col None
                          (Some (hd_ref NIL_LEAF (l1 ++ (x, xv) :: l2))) rr) ->
  r <> NIL_LEAF ->
  spine h r rv (l1 ++ (x, xv) :: l2) NIL_LEAF ->
  let g := last_ref r l1 in
  let gv := last_val rv l1 in
  x <> NIL_LEAF /\ xv < gv /\ g <> NIL_LEAF /\ x <> g /\
  h !! x = Some (mkRBNode (Some xv) RED (Some g)
                          (Some (hd_ref NIL_LEAF l2)) (Some NIL_LEAF)) /\
  exists gc gp gr,
    h !! g = Some (mkRBNode (Some gv) gc gp (Some x) gr) /\
    ((l1 = [] /\ g = r /\ gc = col /\ gp = None /\ gr = rr) \/
     (In (g, gv) l1 /\ gc = RED /\ gr = Some NIL_LEAF)).
Proof.
  intros Hr Hr0 Hsp g gv. apply spine_app in Hsp as [Hsp1 Hsp2].
  destruct Hsp2 as (Hx & Hxv & Hxrec & Hsp2). fold g gv in Hxv, Hxrec.
  cbn [hd_ref] in Hsp1.
  assert (exists gc gp gr,
    h !! g = Some (mkRBNode (Some gv) gc gp (Some x) gr) /\ g <> NIL_LEAF /\
    ((l1 = [] /\ g = r /\ gc = col /\ gp = None /\ gr = rr) \/
     (In (g, gv) l1 /\ gc = RED /\ gr = Some NIL_LEAF))) as (gc & gp & gr & Hg & Hg0 & Hk).
  { subst g gv. destruct l1 as [|[b bv] l1 _] using rev_ind.
    - cbn in *. exists col, None, rr. split; [done|]. split; [done|]. left. done.
    - rewrite last_ref_snoc, last_val_snoc.
      apply spine_app in Hsp1 as [_ Hb]. destruct Hb as (Hb0 & _ & Hbrec & _).
      cbn [hd_ref] in Hbrec. eexists _, _, _. split; [exact Hbrec|].
      split; [done|]. right. split; [|done]. apply in_or_app. right. by left. }
  split; [done|]. split; [done|]. split; [done|]. split.
  - intros ->. rewrite Hg in Hxrec. injection Hxrec as E. lia.
  - split; [done|]. eauto 10.
Qed.

Lemma leaf_none_or_some (rc : option (ref * Z)) :
  rc = None \/ exists c cv, rc = Some (c, cv).
Proof. destruct rc as [[c cv]|]; eauto. Qed.

Lemma spine_nil_or_cons (ls : list (ref * Z)) :
  ls = [] \/ exists a av ls1, ls = (a, av) :: ls1.
Proof. destruct ls as [|[a av] ls1]; eauto. Qed.

Section OnShape.
Variables (s : state) (v : Z) (r : ref) (rv : Z).
Variables (ls : list (ref * Z)) (rc : option (ref * Z)).
Variables (c0 : Shades) (l0 r0 : option ref).
Hypothesis H0 : heap s !! NIL_LEAF = Some (mkRBNode None c0 None l0 r0).
Hypothesis Hroot : root s = Some r.
Hypothesis Hshape : shape_at s r rv ls rc.

Lemma spine_ref_lt a av : In (a, av) ls -> (a < length (heap s))%nat.
Proof.
  intros Hin. pose proof Hshape as (_ & _ & Hsp & _).
  destruct (spine_in _ _ _ _ _ _ _ Hsp Hin) as (_ & _ & pa & l & Hrec).
  eapply lookup_lt_Some; eauto.
Qed.

Lemma spine_ref_not_root a av : In (a, av) ls -> a <> r.
Proof.
  intros Hin ->. pose proof Hshape as (_ & [col Hrec] & Hsp & _).
  destruct (spine_in _ _ _ _ _ _ _ Hsp Hin) as (_ & Hlt & pa & l & Hrec1).
  rewrite Hrec in Hrec1. injection Hrec1 as -> _. lia.
Qed.

Lemma add_after_root_right :
  rc = None -> rv < v -> settled (add_after v (r, Some "R"%string) s).
Proof.
  intros Hrc Hlt. pose proof Hshape as (Hr & [col Hrec] & Hsp & _ & Hcnt).
  rewrite Hrc in Hrec, Hcnt. cbn [leaf_ref] in Hrec.
  pose proof (lookup_lt_Some _ _ _ Hrec) as Hrlt.
  pose proof (lookup_lt_Some _ _ _ H0) as H0lt.
  start_after.
  erewrite (run_bind (_try_rebalance _))
    by (eapply _try_rebalance_root_child;
        [store_lookup | reflexivity | store_lookup | reflexivity]).
  finish_after.
  split.
  - exists c0, l0, r0. rewrite heap_bump. store_lookup.
  - cbn [root bump]. rewrite root_upd, root_push, Hroot.
    exists rv, ls, (Some (length (heap s), v)). split; [done|]. split; [|split; [|split]].
    + exists col. rewrite heap_bump. store_lookup.
    + rewrite heap_bump. eapply spine_frame; [|exact Hsp].
      intros a av Hin. pose proof (spine_ref_lt a av Hin).
      pose proof (spine_ref_not_root a av Hin). store_lookup.
    + cbn [right_leaf]. rewrite heap_bump. split; [unfold NIL_LEAF in *; lia|].
      split; [done|]. store_lookup.
    + cbn [count bump]. rewrite count_upd, count_push. lia.
Qed.

Lemma add_after_root_left :
  ls = [] -> v < rv -> settled (add_after v (r, Some "L"%string) s).
Proof.
  intros Hls Hlt. pose proof Hshape as (Hr & [col Hrec] & _ & Hleaf & Hcnt).
  rewrite Hls in Hrec, Hcnt. cbn [hd_ref] in Hrec.
  pose proof (lookup_lt_Some _ _ _ Hrec) as Hrlt.
  pose proof (lookup_lt_Some _ _ _ H0) as H0lt.
  start_after.
  erewrite (run_bind (_try_rebalance _))
    by (eapply _try_rebalance_root_child;
        [store_lookup | reflexivity | store_lookup | reflexivity]).
  finish_after.
  split.
  - exists c0, l0, r0. rewrite heap_bump. store_lookup.
  - cbn [root bump]. rewrite root_upd, root_push, Hroot.
    exists rv, [(length (heap s), v)], rc.
    split; [done|]. split; [|split; [|split]].
    + exists col. rewrite heap_bump. store_lookup.
    + rewrite heap_bump. cbn [spine hd_ref].
      split; [unfold NIL_LEAF in *; lia|]. split; [done|]. split; [|done].
      store_lookup.
    + rewrite heap_bump. destruct rc as [[c cv]|]; [|done].
      destruct Hleaf as (Hc & Hcv & Hcrec).
      pose proof (lookup_lt_Some _ _ _ Hcrec) as Hclt.
      assert (c <> r) by (intros ->; congruence).
      split; [done|]. split; [done|]. store_lookup.
    + cbn [count bump length]. rewrite count_upd, count_push.
      cbn [length] in Hcnt. lia.
Qed.

(** The root's right child is a red node whose parent pointer still names
    the root, so any insertion below it meets a red-red pair. *)
Lemma RBNode_eq_leaf_spine s1 c cv cl cr col rl rr :
  heap s1 !! NIL_LEAF = Some (mkRBNode None c0 None l0 r0) ->
  heap s1 !! c = Some (mkRBNode (Some cv) RED (Some r) cl cr) ->
  heap s1 !! r = Some (mkRBNode (Some rv) col None rl rr) ->
  rv < cv ->
  (forall a av, In (a, av) ls -> heap s1 !! a = heap s !! a) ->
  RBNode_eq c (Some (hd_ref NIL_LEAF ls)) s1 = (Ret false, s1).
Proof.
  intros Hn Hc Hr1 Hcv Hfr. pose proof Hshape as (_ & _ & Hsp & _).
  destruct ls as [|[a av] ls1] eqn:Els; cbn [hd_ref].
  - eapply RBNode_eq_real_nil; eassumption.
  - destruct Hsp as (Ha & Hav & Harec & _).
    eapply RBNode_eq_other_value with (w := av);
      [exact Hc | | exact Hr1 | exact Hr1 | lia].
    rewrite (Hfr a av) by (by left). exact Harec.
Qed.

Lemma add_after_leaf_left c cv :
  rc = Some (c, cv) -> v < cv ->
  settled (add_after v (c, Some "L"%string) s).
Proof.
  intros Hrc Hlt.
  pose proof Hshape as (Hr & [col Hrec] & Hsp & Hleaf & Hcnt).
  rewrite Hrc in Hrec, Hleaf. cbn [leaf_ref right_leaf] in Hrec, Hleaf.
  destruct Hleaf as (Hc & Hcv & Hcrec).
  pose proof (lookup_lt_Some _ _ _ Hrec) as Hrlt.
  pose proof (lookup_lt_Some _ _ _ Hcrec) as Hclt.
  pose proof (lookup_lt_Some _ _ _ H0) as H0lt.
  assert (c <> r) by (intros ->; congruence).
  start_after.
  erewrite run_bind_raise; [done|].
  eapply _try_rebalance_red_uncle with (u := c); try store_lookup.
  - eapply RBNode_eq_leaf_spine; try store_lookup.
    intros a av Hin. pose proof (spine_ref_lt a av Hin).
    assert (a <> c).
    { intros ->. destruct (spine_in _ _ _ _ _ _ _ Hsp Hin) as (_ & ? & ? & ? & E).
      rewrite Hcrec in E. injection E as ->. lia. }
    store_lookup.
  - cbn [left right]. by rewrite (proj2 (Z.ltb_lt v cv) Hlt).
Qed.

Lemma add_after_leaf_right c cv :
  rc = Some (c, cv) -> cv < v ->
  settled (add_after v (c, Some "R"%string) s).
Proof.
  intros Hrc Hlt.
  pose proof Hshape as (Hr & [col Hrec] & Hsp & Hleaf & Hcnt).
  rewrite Hrc in Hrec, Hleaf, Hcnt. cbn [leaf_ref right_leaf] in Hrec, Hleaf.
  destruct Hleaf as (Hc & Hcv & Hcrec).
  pose proof (lookup_lt_Some _ _ _ Hrec) as Hrlt.
  pose proof (lookup_lt_Some _ _ _ Hcrec) as Hclt.
  pose proof (lookup_lt_Some _ _ _ H0) as H0lt.
  assert (c <> r) by (intros ->; congruence).
  start_after.
  destruct (spine_nil_or_cons ls) as [Els|(a & av & ls1 & Els)].
  - rewrite Els in Hrec. cbn [hd_ref] in Hrec.
    edestruct (_try_rebalance_RR
                 (upd c (with_right (Some (length (heap s)))
                           (mkRBNode (Some cv) RED (Some r)
                                     (Some NIL_LEAF) (Some NIL_LEAF)))
                   (push (mkRBNode (Some v) RED (Some c)
                                   (Some NIL_LEAF) (Some NIL_LEAF)) s))
                 (length (heap s)) v)
      as (s2 & Hrun & Hcount & Hroot2 & Hlen & Hg & Hfr);
      [store_lookup | store_lookup | store_lookup | store_lookup
      | lia | done | done | lia | lia | done |].
    rewrite (run_bind _ _ _ _ _ Hrun). finish_after.
    split.
    + exists c0, l0, r0. rewrite heap_bump, Hfr by done. store_lookup.
    + cbn [root bump]. rewrite Hroot2, root_upd, root_push, Hroot.
      exists rv, [], None. split; [done|]. split; [|split; [|split]].
      * exists RED. rewrite heap_bump. exact Hg.
      * done.
      * done.
      * cbn [count bump length]. rewrite Hcount, count_upd, count_push. lia.
  - erewrite run_bind_raise; [done|].
    rewrite Els in Hsp, Hrec. cbn [hd_ref] in Hrec.
    pose proof Hsp as (Ha & Hav & Harec & _).
    pose proof (lookup_lt_Some _ _ _ Harec) as Halt.
    assert (a <> c) by (intros ->; rewrite Hcrec in Harec;
                        injection Harec as ->; lia).
    assert (a <> r) by (intros ->; congruence).
    eapply _try_rebalance_red_uncle with (u := a); try store_lookup.
    + replace (Some a) with (Some (hd_ref NIL_LEAF ls)) by (by rewrite Els).
      eapply RBNode_eq_leaf_spine; try store_lookup.
      intros b bv Hin. pose proof (spine_ref_lt b bv Hin).
      assert (b <> c).
      { intros ->. pose proof Hshape as (_ & _ & Hsp' & _).
        destruct (spine_in _ _ _ _ _ _ _ Hsp' Hin) as (_ & ? & ? & ? & E).
        rewrite Hcrec in E. injection E as ->. lia. }
      store_lookup.
    + cbn [left right]. by rewrite (proj2 (Z.ltb_ge v cv) ltac:(lia)).
Qed.

(** Below a spine node on its right: the node's own parent pointer makes
    the call look at the node itself as the uncle. *)
Lemma add_after_spine_right l1 x xv l2 :
  ls = l1 ++ (x, xv) :: l2 -> xv < v ->
  settled (add_after v (x, Some "R"%string) s).
Proof.
  intros Els Hlt.
  pose proof Hshape as (Hr & [col Hrec] & Hsp & _).
  rewrite Els in Hrec, Hsp.
  destruct (spine_split _ _ _ _ _ _ _ _ _ Hrec Hr Hsp)
    as (Hx & Hxv & Hg0 & Hxg & Hxrec & gc & gp & gr & Hgrec & _).
  pose proof (lookup_lt_Some _ _ _ Hxrec) as Hxlt.
  pose proof (lookup_lt_Some _ _ _ Hgrec) as Hglt.
  pose proof (lookup_lt_Some _ _ _ H0) as H0lt.
  start_after.
  erewrite run_bind_raise; [done|].
  eapply _try_rebalance_red_uncle with (u := x); try store_lookup.
  - cbn [left]. eapply RBNode_eq_self; [store_lookup | store_lookup].
  - cbn [left right]. by rewrite (proj2 (Z.ltb_ge v xv) ltac:(lia)).
Qed.

(** Below the last spine node on its left, with the sentinel as uncle: the
    rotation leaves every link between real nodes in place, so the spine
    just grows by the new node. *)
Lemma spine_end_rotates l1 p pv gc gp :
  ls = l1 ++ [(p, pv)] -> v < pv ->
  heap s !! last_ref r l1 =
    Some (mkRBNode (Some (last_val rv l1)) gc gp (Some p) (Some NIL_LEAF)) ->
  (l1 = [] /\ rc = None) \/ (In (last_ref r l1, last_val rv l1) l1 /\ gc = RED) ->
  settled (add_after v (p, Some "L"%string) s).
Proof.
  intros Els Hlt Hgrec Hk.
  pose proof Hshape as (Hr & [col Hrec] & Hsp & Hleaf & Hcnt).
  rewrite Els in Hrec, Hsp, Hcnt.
  destruct (spine_split _ _ _ _ _ _ _ _ _ Hrec Hr Hsp)
    as (Hp0 & Hpv & Hg0 & Hpg & Hprec & _).
  cbn [hd_ref] in Hprec.
  pose proof (lookup_lt_Some _ _ _ Hprec) as Hplt.
  pose proof (lookup_lt_Some _ _ _ Hgrec) as Hglt.
  pose proof (lookup_lt_Some _ _ _ Hrec) as Hrlt.
  pose proof (lookup_lt_Some _ _ _ H0) as H0lt.
  apply spine_app in Hsp as [Hsp1 _]. cbn [hd_ref] in Hsp1.
  start_after.
  edestruct (_try_rebalance_LL
               (upd p (with_left (Some (length (heap s)))
                         (mkRBNode (Some pv) RED (Some (last_ref r l1))
                                   (Some NIL_LEAF) (Some NIL_LEAF)))
                 (push (mkRBNode (Some v) RED (Some p)
                                 (Some NIL_LEAF) (Some NIL_LEAF)) s))
               (length (heap s)) v)
    as (s2 & Hrun & Hcount & Hroot2 & Hlen & Hnil2 & Hg2 & Hfr);
    [store_lookup | store_lookup | store_lookup | store_lookup
    | done | unfold NIL_LEAF in *; lia | done | lia |].
  rewrite (run_bind _ _ _ _ _ Hrun). finish_after.
  assert (forall a, a <> NIL_LEAF -> a <> last_ref r l1 -> a <> p ->
                    (a < length (heap s))%nat ->
                    heap s2 !! a = heap s !! a) as Hold.
  { intros a ? ? ? ?. rewrite Hfr by done. store_lookup. }
  assert (forall a av, In (a, av) l1 -> heap s2 !! a = heap s !! a) as Hl1.
  { intros a av Hin.
    destruct (spine_in _ _ _ _ _ _ _ Hsp1 Hin) as (Ha0 & _ & pa & l & Harec).
    pose proof (spine_last_le _ _ _ _ _ _ _ Hsp1 Hin) as Hle.
    assert (a <> p) by (intros ->; rewrite Hprec in Harec;
                        injection Harec as ->; lia).
    destruct (decide (a = last_ref r l1)) as [->|Hag].
    - destruct Hk as [[-> _]|[_ ->]]; [done|]. by rewrite Hg2, Hgrec.
    - apply Hold; try done. eapply lookup_lt_Some; eauto. }
  split.
  - eexists _, _, _. rewrite heap_bump. exact Hnil2.
  - cbn [root bump]. rewrite Hroot2, root_upd, root_push, Hroot.
    exists rv, (ls ++ [(length (heap s), v)]), rc.
    split; [done|]. rewrite heap_bump. split; [|split; [|split]].
    + rewrite Els, <- app_assoc, hd_ref_app. cbn [app hd_ref].
      rewrite hd_ref_app in Hrec. cbn [hd_ref] in Hrec.
      destruct Hk as [[-> ->]|[Hin ->]].
      * cbn [hd_ref app last_ref rev] in *. exists RED.
        rewrite Hg2. rewrite Hrec in Hgrec. by injection Hgrec as _ <-.
      * exists col.
        assert (r <> last_ref r l1).
        { intros E. rewrite <- E in Hin.
          destruct (spine_in _ _ _ _ _ _ _ Hsp1 Hin) as (_ & ? & _).
          rewrite <- E in Hgrec. rewrite Hrec in Hgrec.
          injection Hgrec as E1. lia. }
        assert (r <> p) by (intros ->; congruence).
        by rewrite Hold.
    + rewrite Els. apply spine_app. split; [apply spine_app; split|].
      * cbn [hd_ref]. eapply spine_frame; [exact Hl1 | exact Hsp1].
      * cbn [spine hd_ref]. split; [done|]. split; [done|]. split; [|done].
        rewrite Hfr by done. store_lookup.
      * rewrite last_ref_snoc, last_val_snoc. cbn [spine hd_ref].
        split; [unfold NIL_LEAF in *; lia|]. split; [done|]. split; [|done].
        rewrite Hfr by (unfold NIL_LEAF in *; lia). store_lookup.
    + destruct (leaf_none_or_some rc) as [Erc|(c & cv & Erc)];
        rewrite Erc in *; [done|].
      destruct Hleaf as (Hc0 & Hcv & Hcrec). split; [done|]. split; [done|].
      destruct Hk as [[_ [=]]|[Hin ->]].
      destruct (spine_in _ _ _ _ _ _ _ Hsp1 Hin) as (_ & ? & _).
      rewrite Hold; [done | done | | | by eapply lookup_lt_Some].
      * intros ->. rewrite Hgrec in Hcrec. injection Hcrec as E. lia.
      * intros ->. rewrite Hprec in Hcrec. injection Hcrec as E. lia.
    + cbn [count bump]. rewrite Hcount, count_upd, count_push.
      rewrite Els, !length_app. rewrite length_app in Hcnt.
      cbn [length] in *. lia.
Qed.

Lemma spine_end_raises p pv c cv :
  ls = [(p, pv)] -> rc = Some (c, cv) -> v < pv ->
  settled (add_after v (p, Some "L"%string) s).
Proof.
  intros Els Erc Hlt.
  pose proof Hshape as (Hr & [col Hrec] & Hsp & Hleaf & _).
  rewrite Els in Hrec, Hsp. rewrite Erc in Hrec, Hleaf.
  cbn [hd_ref leaf_ref] in Hrec.
  destruct Hsp as (Hp0 & Hpv & Hprec & _). cbn [hd_ref] in Hprec.
  destruct Hleaf as (Hc0 & Hcv & Hcrec).
  pose proof (lookup_lt_Some _ _ _ Hprec) as Hplt.
  pose proof (lookup_lt_Some _ _ _ Hcrec) as Hclt.
  pose proof (lookup_lt_Some _ _ _ Hrec) as Hrlt.
  pose proof (lookup_lt_Some _ _ _ H0) as H0lt.
  assert (p <> r) by (intros ->; congruence).
  assert (c <> p) by (intros ->; rewrite Hprec in Hcrec;
                      injection Hcrec as E; lia).
  start_after.
  erewrite run_bind_raise; [done|].
  eapply _try_rebalance_red_uncle with (u := c); try store_lookup.
  - cbn [left]. eapply RBNode_eq_self; [store_lookup | store_lookup].
  - cbn [left right]. by rewrite (proj2 (Z.ltb_lt v pv) Hlt).
Qed.

Lemma add_after_spine_end l1 p pv :
  ls = l1 ++ [(p, pv)] -> v < pv ->
  settled (add_after v (p, Some "L"%string) s).
Proof.
  intros Els Hlt.
  pose proof Hshape as (Hr & [col Hrec] & Hsp & _).
  rewrite Els in Hrec, Hsp.
  destruct (spine_split _ _ _ _ _ _ _ _ _ Hrec Hr Hsp)
    as (_ & _ & _ & _ & _ & gc & gp & gr & Hgrec & Hk).
  destruct Hk as [(El1 & _ & _ & _ & ->)|(Hin & -> & ->)].
  - destruct (leaf_none_or_some rc) as [Erc|(c & cv & Erc)].
    + eapply spine_end_rotates; [exact Els | exact Hlt | | left; done].
      rewrite Erc in Hgrec. exact Hgrec.
    + eapply spine_end_raises; [|exact Erc | exact Hlt].
      by rewrite Els, El1.
  - eapply spine_end_rotates; [exact Els | exact Hlt | exact Hgrec |].
    right. done.
Qed.

Lemma _find_parent_shape fuel :
  _find_parent fuel v s = (Ret (locate v r rv ls rc), s) \/
  (Z.of_nat fuel < count s /\ _find_parent fuel v s = (OutOfFuel, s)).
Proof.
  pose proof Hshape as (Hr & [col Hrec] & Hsp & Hleaf & Hcnt).
  assert (0 <= match rc with Some _ => 1 | None => 0 end) as Hbit.
  { destruct (leaf_none_or_some rc) as [Erc|(c & cv & Erc)];
      rewrite Erc; lia. }
  unfold _find_parent.
  rewrite (run_bind get_root _ s (root s) s eq_refl), Hroot.
  destruct fuel as [|fuel]; [right; split; [lia | reflexivity]|].
  cbn [inner_find]. unfold locate. run. unfold pyeq.
  destruct (v =? rv); [left; reflexivity|]. unfold pylt. run.
  destruct (v <? rv); run.
  - destruct (spine_nil_or_cons ls) as [Els|(a & av & ls1 & Els)];
      rewrite Els in *; cbn [hd_ref]; run; [left; reflexivity|].
    pose proof Hsp as (_ & _ & Harec & _). run.
    destruct (inner_find_spine s v _ _ _ ls1 a av r rv fuel H0 Hsp)
      as [E|[Hle E]]; rewrite E; [by left | right].
    split; [|done]. cbn [length] in Hcnt. lia.
  - destruct (leaf_none_or_some rc) as [Erc|(c & cv & Erc)];
      rewrite Erc in *; cbn [leaf_ref]; run; [left; reflexivity|].
    destruct Hleaf as (Hc & Hcv & Hcrec). run.
    destruct (inner_find_spine s v _ _ _ [] c cv r (cv + 1) fuel H0)
      as [E|[Hle E]];
      [cbn [spine hd_ref]; split; [done|]; split; [lia|]; split; done | |];
      rewrite E; [by left | right].
    split; [|done]. cbn [length] in Hle. lia.
Qed.

Lemma shape_here : shape s.
Proof.
  split; [by exists c0, l0, r0|]. rewrite Hroot. eauto.
Qed.

(** Whatever place the descent ends at, the rest of [add] returns in a
    state of the same form or raises. *)
Lemma add_after_locate : settled (add_after v (locate v r rv ls rc) s).
Proof.
  unfold locate.
  destruct (Z.eqb_spec v rv) as [->|Hne]; [exact shape_here|].
  destruct (Z.ltb_spec v rv) as [Hlt|Hge].
  - destruct (spine_nil_or_cons ls) as [Els|(a & av & ls1 & Els)];
      rewrite Els.
    + by apply add_after_root_left.
    + destruct (descend_spec v ls1 a av)
        as [(l1 & x & xv & l2 & Heq & [[-> ->]|[Hxv ->]])|[Hlast ->]].
      * exact shape_here.
      * eapply add_after_spine_right; [|exact Hxv]. by rewrite Els.
      * destruct ls1 as [|[b bv] ls1 _] using rev_ind.
        -- eapply (add_after_spine_end []); [by rewrite Els | exact Hlast].
        -- rewrite last_ref_snoc. rewrite last_val_snoc in Hlast.
           eapply (add_after_spine_end ((a, av) :: ls1)); [|exact Hlast].
           by rewrite Els.
  - destruct (leaf_none_or_some rc) as [Erc|(c & cv & Erc)]; rewrite Erc.
    + apply add_after_root_right; [done | lia].
    + cbn [descend].
      destruct (Z.eqb_spec v cv) as [->|Hnc]; [exact shape_here|].
      destruct (Z.ltb_spec v cv).
      * by eapply add_after_leaf_left.
      * eapply add_after_leaf_right; [done | lia].
Qed.
End OnShape.

(** What [add] does on a state of the reachable form does not depend on the
    budget, once the budget exceeds [count]. *)
Lemma add_on_shape v s :
  shape s ->
  exists out,
    settled out /\
    forall fuel,
      add fuel v s = out \/
      (Z.of_nat fuel < count s /\ add fuel v s = (OutOfFuel, s)).
Proof.
  intros [(c0 & l0 & r0 & H0) Hs].
  destruct (root s) as [r|] eqn:Hroot.
  - destruct Hs as (rv & ls & rc & Hs).
    exists (add_after v (locate v r rv ls rc) s). split.
    + eapply add_after_locate; eassumption.
    + intros fuel. unfold add.
      rewrite (run_bind get_root _ s (root s) s eq_refl), Hroot.
      destruct (_find_parent_shape s v r rv ls rc c0 l0 r0 H0 Hroot Hs fuel)
        as [E|[Hlt E]].
      * left. by rewrite (run_bind _ _ _ _ _ E).
      * right. split; [done|]. unfold bind. by rewrite E.
  - eexists. split; [|intros fuel; left; unfold add;
      rewrite (run_bind get_root _ s (root s) s eq_refl), Hroot; reflexivity].
    pose proof (lookup_lt_Some _ _ _ H0) as H0lt.
    cbn. split.
    + exists c0, l0, r0. cbn. by rewrite lookup_app_l.
    + cbn. exists v, [], None. unfold shape_at. cbn.
      split; [unfold NIL_LEAF in *; lia|]. split; [|split; [done|split; [done|lia]]].
      exists BLACK. rewrite lookup_app_r by lia. by rewrite Nat.sub_diag.
Qed.

Lemma add_keeps_shape fuel v s x s1 :
  shape s -> add fuel v s = (Ret x, s1) -> shape s1.
Proof.
  intros Hs Hadd. destruct (add_on_shape v s Hs) as (out & Hout & Hfuel).
  destruct (Hfuel fuel) as [E|[_ E]]; rewrite E in Hadd; [|discriminate].
  subst out. exact Hout.
Qed.

Lemma shape_init : shape init.
Proof.
  split; [by exists BLACK, None, None|]. cbn. lia.
Qed.

Lemma returned_shape s : returned s -> shape s.
Proof.
  induction 1 as [|s fuel v x s1 _ IH Hadd]; [apply shape_init|].
  eapply add_keeps_shape; eauto.
Qed.

(** ** The in-order walk of a state of the reachable form *)

Lemma RBNode_iter_spine s c0 l0 r0 ls : forall a av p pv fuel,
  heap s !! NIL_LEAF = Some (mkRBNode None c0 None l0 r0) ->
  spine (heap s) p pv ((a, av) :: ls) NIL_LEAF ->
  RBNode_iter fuel a s = (Ret (spine_values ((a, av) :: ls)), s) \/
  RBNode_iter fuel a s = (OutOfFuel, s).
Proof.
  induction ls as [|[b bv] ls IH]; intros a av p pv fuel H0 Hsp;
    (destruct fuel as [|fuel]; [by right|]);
    destruct Hsp as (Ha & Hav & Hrec & Hsp); cbn [RBNode_iter hd_ref] in *; run.
  - by left.
  - pose proof Hsp as (Hb & Hbv & Hrecb & _). run.
    destruct (IH b bv a av fuel H0 Hsp) as [E|E].
    + left. rewrite (run_bind _ _ _ _ _ E). run.
      unfold spine_values. cbn [map rev snd]. reflexivity.
    + right. unfold bind. by rewrite E.
Qed.

Lemma RedBlackTree_iter_shape s r rv ls rc c0 l0 r0 fuel :
  heap s !! NIL_LEAF = Some (mkRBNode None c0 None l0 r0) ->
  root s = Some r -> shape_at s r rv ls rc ->
  RedBlackTree_iter fuel s = (Ret (walk rv ls rc), s) \/
  RedBlackTree_iter fuel s = (OutOfFuel, s).
Proof.
  intros H0 Hroot (Hr & [col Hrec] & Hsp & Hleaf & _).
  unfold RedBlackTree_iter.
  rewrite (run_bind get_root _ s (root s) s eq_refl), Hroot.
  destruct fuel as [|fuel]; [by right|]. cbn [RBNode_iter]. run.
  assert ((rs <- (if is_None (value (mkRBNode None c0 None l0 r0)) then ret []
                  else RBNode_iter fuel NIL_LEAF) ;;
           ret (spine_values [] ++ Some rv :: rs)) s
          = (Ret (walk rv [] None), s)) as Hnone by reflexivity.
  destruct ls as [|[a av] ls]; cbn [hd_ref] in *; run.
  - destruct rc as [[c cv]|]; cbn [leaf_ref] in *; run; [|by left].
    destruct Hleaf as (Hc & Hcv & Hcrec). run.
    destruct (RBNode_iter_spine s _ _ _ [] c cv r (cv + 1) fuel H0) as [E|E];
      [cbn [spine hd_ref]; split; [done|]; split; [lia|]; split; done | |].
    + left. rewrite (run_bind _ _ _ _ _ E). reflexivity.
    + right. unfold bind. by rewrite E.
  - pose proof Hsp as (_ & _ & Harec & _). run.
    destruct (RBNode_iter_spine s _ _ _ ls a av r rv fuel H0 Hsp) as [E|E];
      [|right; unfold bind; by rewrite E].
    rewrite (run_bind _ _ _ _ _ E). run.
    destruct rc as [[c cv]|]; cbn [leaf_ref] in *; run; [|by left].
    destruct Hleaf as (Hc & Hcv & Hcrec). run.
    destruct (RBNode_iter_spine s _ _ _ [] c cv r (cv + 1) fuel H0) as [E1|E1];
      [cbn [spine hd_ref]; split; [done|]; split; [lia|]; split; done | |].
    + left. rewrite (run_bind _ _ _ _ _ E1). reflexivity.
    + right. unfold bind. by rewrite E1.
Qed.

Lemma In_spine_values v ls :
  In (Some v) (spine_values ls) <-> exists x, In (x, v) ls.
Proof.
  unfold spine_values. rewrite <- in_rev, in_map_iff. split.
  - intros ([x xv] & [= ->] & Hx). eauto.
  - intros (x & Hx). exists (x, v). auto.
Qed.

(** A value met by the walk is found by the descent. *)
Lemma descend_present h v ls : forall a av p pv e,
  spine h p pv ((a, av) :: ls) e ->
  (exists x, In (x, v) ((a, av) :: ls)) ->
  snd (descend v a av ls) = None.
Proof.
  induction ls as [|[b bv] ls IH]; intros a av p pv e Hsp [x Hin];
    cbn [descend]; destruct (Z.eqb_spec v av) as [->|Hne]; try done.
  - destruct Hin as [[= _ <-]|[]]. done.
  - destruct Hsp as (_ & _ & _ & Hsp).
    destruct Hin as [[= _ <-]|Hin]; [done|].
    destruct (spine_in _ _ _ _ _ _ _ Hsp Hin) as (_ & Hlt & _).
    rewrite (proj2 (Z.ltb_lt v av) Hlt). eapply IH; eauto.
Qed.

Lemma locate_present s v r rv ls rc :
  shape_at s r rv ls rc -> In (Some v) (walk rv ls rc) ->
  snd (locate v r rv ls rc) = None.
Proof.
  intros (Hr & _ & Hsp & Hleaf & _) Hin. unfold locate, walk in *.
  destruct (Z.eqb_spec v rv) as [->|Hne]; [done|].
  apply in_app_or in Hin as [Hin|[[=]|Hin]]; [| done |].
  - apply In_spine_values in Hin as [x Hx].
    destruct (spine_in _ _ _ _ _ _ _ Hsp Hx) as (_ & Hlt & _).
    rewrite (proj2 (Z.ltb_lt v rv) Hlt).
    destruct ls as [|[a av] ls]; [done|]. eapply descend_present; eauto.
  - destruct rc as [[c cv]|]; [|done]. destruct Hin as [[= ->]|[]].
    destruct Hleaf as (_ & Hcv & _).
    rewrite (proj2 (Z.ltb_ge v rv) ltac:(lia)). cbn [descend].
    by rewrite Z.eqb_refl.
Qed.

(** ** Sequences of calls *)

Lemma add_all_returned fuel vs : forall s xs s1,
  returned s -> add_all fuel vs s = (Ret xs, s1) -> returned s1.
Proof.
  induction vs as [|v vs IH]; intros s xs s1 Hs H; cbn [add_all] in H.
  - inversion H; subst; assumption.
  - destruct (add fuel v s) as [[x| | |] s2] eqn:E; try discriminate.
    destruct (add_all fuel vs s2) as [[ys| | |] s3] eqn:E2; try discriminate.
    inversion H; subst. eapply IH; [|exact E2]. econstructor; eauto.
Qed.

Lemma add_all_calls fuel vs : forall s, calls s (snd (add_all fuel vs s)).
Proof.
  induction vs as [|v vs IH]; intros s; cbn [add_all]; [constructor|].
  destruct (add fuel v s) as [r s2] eqn:E.
  assert (calls s s2) as Hstep.
  { econstructor; [constructor | exact E]. }
  assert (forall s3, calls s2 s3 -> calls s s3) as Htrans.
  { induction 1 as [|s3 f w r0 s4 _ IH1 Hadd]; [assumption|].
    exact (calls_step _ _ _ _ _ _ IH1 Hadd). }
  destruct r; cbn [snd]; try assumption.
  specialize (IH s2).
  destruct (add_all fuel vs s2) as [[ys| | |] s3]; cbn [snd] in *; auto.
Qed.

(** [add] never reassigns [self.root] once it is set. *)
Lemma add_root_fixed fuel v s r :
  root s = Some r -> root (snd (add fuel v s)) = Some r.
Proof.
  intros Hr. unfold add.
  rewrite (run_bind get_root _ s (root s) s eq_refl), Hr.
  apply (bind_readonly_keeps (fun s => root s = Some r));
    [apply readonly__find_parent | exact Hr |].
  intros [p d] _. unfold add_after. destruct d as [d|]; [|exact Hr].
  assert (forall o x s1, root s1 = Some r -> root (snd (set_left o x s1)) = Some r)
    as Hl.
  { intros [a|] x s1 H; cbn; [|exact H].
    apply (bind_load_keeps (fun s => root s = Some r)); auto. }
  assert (forall o x s1, root s1 = Some r -> root (snd (set_right o x s1)) = Some r)
    as Hrt.
  { intros [a|] x s1 H; cbn; [|exact H].
    apply (bind_load_keeps (fun s => root s = Some r)); auto. }
  assert (forall o c s1, root s1 = Some r -> root (snd (set_color o c s1)) = Some r)
    as Hc.
  { intros [a|] c s1 H; cbn; [|exact H].
    apply (bind_load_keeps (fun s => root s = Some r)); auto. }
  apply (bind_keeps (fun s => root s = Some r)); [exact Hr|].
  intros new_node s1 H1.
  apply (bind_keeps (fun s => root s = Some r)).
  { destruct (String.eqb d "L"); [apply Hl|]; assumption. }
  intros _ s2 H2.
  apply (bind_keeps (fun s => root s = Some r)).
  { destruct (String.eqb d "R"); [apply Hrt|]; assumption. }
  intros _ s3 H3.
  apply (bind_keeps (fun s => root s = Some r));
    [|intros _ s4 H4; exact H4].
  unfold _try_rebalance.
  apply (bind_load_keeps (fun s => root s = Some r)); [assumption|].
  intros n _. destruct (parent n) as [q|]; [|assumption].
  apply (bind_load_keeps (fun s => root s = Some r)); [assumption|].
  intros pn _. destruct (parent pn) as [g|]; [|assumption].
  destruct (_ || _); [assumption|].
  apply (bind_readonly_keeps (fun s => root s = Some r));
    [apply readonly_pylt | assumption |]. intros lt _.
  apply (bind_load_keeps (fun s => root s = Some r)); [assumption|].
  intros gn _.
  apply (bind_readonly_keeps (fun s => root s = Some r));
    [apply readonly_RBNode_eq | assumption |]. intros same _.
  apply (bind_readonly_keeps (fun s => root s = Some r));
    [apply readonly_py_node_eq | assumption |]. intros is_nil _.
  apply (bind_readonly_keeps (fun s => root s = Some r));
    [destruct is_nil; ro | assumption |].
  intros black _. destruct black; [|assumption].
  destruct lt, same; cbn; try assumption;
    unfold _right_rotation, _left_rotation;
    repeat (apply (bind_keeps (fun s => root s = Some r)); [|intros _ ? ?]);
    auto.
Qed.

(** * The claims *)

(** C1.  Inserting 10, 30, 20 into an empty tree: the third call does not
    complete.  The new node 20 is hung below 30, the uncle is read off the
    node's own direction and so is the red parent 30 itself, and the call
    ends in [self._recolor(grandfather)], which raises [TypeError]; no
    rotation runs, the root stays 10 and [count] stays 2. *)
Theorem mixed_case_raises fuel :
  exists s,
    add_all (2 + fuel) [10; 30; 20] init = (Raise TypeError, s) /\
    root s = Some 1%nat /\
    heap s !! 1%nat = Some (mkRBNode (Some 10) BLACK None
                                     (Some NIL_LEAF) (Some 2%nat)) /\
    heap s !! 2%nat = Some (mkRBNode (Some 30) RED (Some 1%nat)
                                     (Some 3%nat) (Some NIL_LEAF)) /\
    heap s !! 3%nat = Some (mkRBNode (Some 20) RED (Some 2%nat)
                                     (Some NIL_LEAF) (Some NIL_LEAF)) /\
    count s = 2.
Proof. eexists. vm_compute. repeat split. Qed.

(** C2.  Inserting 10, 20, 30 into an empty tree: the three calls return, but
    the root reference still names 10, now red and with the sentinel as both
    children; the promoted node 20 is black with children 10 and 30 and is
    reached from nowhere, the walk yields only 10, and [count] is 3. *)
Theorem right_right_loses_promoted_node fuel :
  exists s,
    add_all (2 + fuel) [10; 20; 30] init
      = (Ret [None; Some 2%nat; Some 3%nat], s) /\
    root s = Some 1%nat /\
    heap s !! 1%nat = Some (mkRBNode (Some 10) RED None
                                     (Some NIL_LEAF) (Some NIL_LEAF)) /\
    heap s !! 2%nat = Some (mkRBNode (Some 20) BLACK (Some 1%nat)
                                     (Some 1%nat) (Some 3%nat)) /\
    RedBlackTree_iter (2 + fuel) s = (Ret [Some 10], s) /\
    count s = 3.
Proof. eexists. vm_compute. repeat split. Qed.

(** C3.  Inserting 30, 20, 10 into an empty tree: the three calls return and
    the links between the three nodes are what they were before the
    rotation ran; the root is still 30, now red, its left child is 20,
    red, whose left child is 10, red.  The rotation wrote into the
    sentinel instead ([parent.right] is passed where the parent belongs). *)
Theorem left_left_keeps_old_root fuel :
  exists s,
    add_all (2 + fuel) [30; 20; 10] init
      = (Ret [None; Some 2%nat; Some 3%nat], s) /\
    root s = Some 1%nat /\
    heap s !! 1%nat = Some (mkRBNode (Some 30) RED None
                                     (Some 2%nat) (Some NIL_LEAF)) /\
    heap s !! 2%nat = Some (mkRBNode (Some 20) RED (Some 1%nat)
                                     (Some 3%nat) (Some NIL_LEAF)) /\
    heap s !! 3%nat = Some (mkRBNode (Some 10) RED (Some 2%nat)
                                     (Some NIL_LEAF) (Some NIL_LEAF)) /\
    heap s !! NIL_LEAF = Some (mkRBNode None BLACK None
                                        (Some 3%nat) (Some 1%nat)).
Proof. eexists. vm_compute. repeat split. Qed.

(** C4.  Inserting 20, 10, 30 and then 5: the new node 5 and its parent 10
    are red and the uncle 30 is red.  The call raises [TypeError] at
    [self._recolor(grandfather)]; parent and uncle are still red, and
    [count] is still 3. *)
Theorem red_uncle_raises fuel :
  exists s,
    add_all (2 + fuel) [20; 10; 30; 5] init = (Raise TypeError, s) /\
    heap s !! 1%nat = Some (mkRBNode (Some 20) BLACK None
                                     (Some 2%nat) (Some 3%nat)) /\
    heap s !! 2%nat = Some (mkRBNode (Some 10) RED (Some 1%nat)
                                     (Some 4%nat) (Some NIL_LEAF)) /\
    heap s !! 3%nat = Some (mkRBNode (Some 30) RED (Some 1%nat)
                                     (Some NIL_LEAF) (Some NIL_LEAF)) /\
    heap s !! 4%nat = Some (mkRBNode (Some 5) RED (Some 2%nat)
                                     (Some NIL_LEAF) (Some NIL_LEAF)) /\
    count s = 3.
Proof. eexists. vm_compute. repeat split. Qed.

(** C5.  After the third insertion of 30, 20, 10 the root is red and two
    red nodes in a row hang below it: 30 (red root) - 20 (red) - 10 (red). *)
Theorem invariants_broken_after_third_insertion fuel :
  exists s r rn l ln ll lln,
    add_all (2 + fuel) [30; 20; 10] init
      = (Ret [None; Some 2%nat; Some 3%nat], s) /\
    root s = Some r /\ heap s !! r = Some rn /\ color rn = RED /\
    left rn = Some l /\ heap s !! l = Some ln /\
    value ln = Some 20 /\ color ln = RED /\
    left ln = Some ll /\ heap s !! ll = Some lln /\
    value lln = Some 10 /\ color lln = RED.
Proof. do 7 eexists. vm_compute. repeat split. Qed.

(** C6.  After inserting 10, 20, 30 the in-order walk yields 10 only: 20 and
    30 were inserted and are not met. *)
Theorem walk_misses_inserted_values fuel :
  exists s,
    add_all (2 + fuel) [10; 20; 30] init
      = (Ret [None; Some 2%nat; Some 3%nat], s) /\
    RedBlackTree_iter (2 + fuel) s = (Ret [Some 10], s) /\
    [Some 10] <> [Some 10; Some 20; Some 30].
Proof. eexists. vm_compute. repeat split. discriminate. Qed.

(** C7.  Inserting the same value twice is not the same as inserting it
    once.  After 10, 20, 30 the right-right rotation has taken 20 and 30 out
    of the tree ([count] 3, walk 10); a second call for 30 does not find it,
    creates another node and returns it, and leaves [count] 4 and the walk
    10, 30. *)
Theorem second_add_of_same_value_grows_tree fuel :
  exists s3 s4,
    add_all (2 + fuel) [10; 20; 30] init
      = (Ret [None; Some 2%nat; Some 3%nat], s3) /\
    count s3 = 3 /\
    RedBlackTree_iter (2 + fuel) s3 = (Ret [Some 10], s3) /\
    add (2 + fuel) 30 s3 = (Ret (Some 4%nat), s4) /\
    count s4 = 4 /\
    RedBlackTree_iter (2 + fuel) s4 = (Ret [Some 10; Some 30], s4).
Proof. do 2 eexists. vm_compute. repeat split. Qed.

(** X18.  In a state reached by calls of [add] that all returned, inserting a
    value that the in-order walk of the tree yields is a no-op: the call
    returns [None] and the state after it is the state before it, so [count]
    and the walk are the same.  In particular, after inserting 10, 20, 10
    the count is 2 and the walk is 10, 20. *)
Theorem duplicate_add_is_noop s v fuel vs :
  returned s ->
  RedBlackTree_iter fuel s = (Ret vs, s) ->
  In (Some v) vs ->
  (forall fuel1, count s <= Z.of_nat fuel1 -> add fuel1 v s = (Ret None, s)) /\
  (exists s3,
      add_all 2 [10; 20; 10] init = (Ret [None; Some 2%nat; None], s3) /\
      count s3 = 2 /\
      RedBlackTree_iter 2 s3 = (Ret [Some 10; Some 20], s3)).
Proof.
  intros Hret Hiter Hin. split; [|eexists; vm_compute; repeat split].
  destruct (returned_shape s Hret) as [(c0 & l0 & r0 & H0) Hs].
  destruct (root s) as [r|] eqn:Hroot.
  - destruct Hs as (rv & ls & rc & Hs). intros fuel1 Hfuel.
    destruct (RedBlackTree_iter_shape s r rv ls rc c0 l0 r0 fuel H0 Hroot Hs)
      as [E|E]; rewrite E in Hiter; [|discriminate].
    injection Hiter as <-.
    pose proof (locate_present s v r rv ls rc Hs Hin) as Hloc.
    unfold add. rewrite (run_bind get_root _ s (root s) s eq_refl), Hroot.
    destruct (_find_parent_shape s v r rv ls rc c0 l0 r0 H0 Hroot Hs fuel1)
      as [F|[Hlt _]]; [|lia].
    rewrite (run_bind _ _ _ _ _ F).
    destruct (locate v r rv ls rc) as [p d]. cbn in Hloc. by subst d.
  - unfold RedBlackTree_iter in Hiter.
    rewrite (run_bind get_root _ s (root s) s eq_refl), Hroot in Hiter.
    injection Hiter as <-. destruct Hin.
Qed.

Lemma duplicate_add_is_noop_witness :
  let s2 := snd (add_all 2 [10; 20] init) in
  returned s2 /\
  RedBlackTree_iter 2 s2 = (Ret [Some 10; Some 20], s2) /\
  In (Some 10) [Some 10; Some 20] /\
  count s2 = 2 /\
  add 2 10 s2 = (Ret None, s2).
Proof.
  intros s2.
  assert (returned s2) as Hret.
  { apply (add_all_returned 2 [10; 20] init [None; Some 2%nat] s2
             returned_init). reflexivity. }
  assert (RedBlackTree_iter 2 s2 = (Ret [Some 10; Some 20], s2)) as Hiter
    by reflexivity.
  assert (In (Some 10) [Some 10; Some 20]) as Hin by (left; reflexivity).
  split; [exact Hret|]. split; [exact Hiter|]. split; [exact Hin|].
  split; [reflexivity|].
  apply (proj1 (duplicate_add_is_noop s2 10 2 _ Hret Hiter Hin) 2%nat).
  vm_compute. discriminate.
Defined.

(** X19.  In every state reached from the empty tree by calls of [add] that
    all returned, a call of [add] with any value comes to an end: with a
    recursion budget of at least [count] it returns or raises, and which of
    the two, and the state it leaves, do not depend on the budget. *)
Theorem add_terminates s v :
  returned s ->
  exists out,
    halts (fst out) /\
    forall fuel, count s <= Z.of_nat fuel -> add fuel v s = out.
Proof.
  intros Hret.
  destruct (add_on_shape v s (returned_shape s Hret)) as (out & Hout & Hfuel).
  exists out. split.
  - destruct out as [[x|e| |] s1]; cbn in *; done.
  - intros fuel Hle. destruct (Hfuel fuel) as [E|[Hlt _]]; [exact E | lia].
Qed.

Lemma add_terminates_witness :
  let s3 := snd (add_all 2 [30; 20; 10] init) in
  returned s3 /\
  exists out,
    halts (fst out) /\
    forall fuel, count s3 <= Z.of_nat fuel -> add fuel 5 s3 = out.
Proof.
  intros s3.
  assert (returned s3) as Hret.
  { apply (add_all_returned 2 [30; 20; 10] init
             [None; Some 2%nat; Some 3%nat] s3 returned_init). reflexivity. }
  split; [exact Hret|]. exact (add_terminates s3 5 Hret).
Defined.

(** C9.  The insertion into the empty tree creates the root and returns
    [None], not the new node: the call gives back what a call with a value
    already in the tree gives back. *)
Theorem first_add_returns_None fuel v :
  exists s,
    add fuel v init = (Ret None, s) /\
    root s = Some 1%nat /\
    heap s !! 1%nat = Some (mkRBNode (Some v) BLACK None
                                     (Some NIL_LEAF) (Some NIL_LEAF)) /\
    count s = 1 /\
    add (1 + fuel) v s = (Ret None, s).
Proof.
  eexists. split; [reflexivity|]. cbn.
  repeat split. unfold add, _find_parent, bind, get_root. cbn.
  unfold pyeq. by rewrite Z.eqb_refl.
Qed.

(** C10.  After any sequence of calls of [add] on a fresh tree, whether they
    returned or raised, the sentinel is black and holds no value. *)
Theorem sentinel_stays_black s :
  calls init s ->
  exists n,
    heap s !! NIL_LEAF = Some n /\ color n = BLACK /\ value n = None.
Proof.
  intros Hcalls.
  destruct (calls_sane init s Hcalls sane_init) as ((n & Hn & Hv & Hc) & _).
  eauto.
Qed.

Lemma sentinel_stays_black_witness :
  let s := snd (add_all 2 [30; 20; 10; 25] init) in
  calls init s /\
  heap s !! NIL_LEAF
    = Some (mkRBNode None BLACK None (Some 3%nat) (Some 1%nat)) /\
  exists n,
    heap s !! NIL_LEAF = Some n /\ color n = BLACK /\ value n = None.
Proof.
  intros s.
  assert (calls init s) as Hcalls by apply add_all_calls.
  split; [exact Hcalls|]. split; [reflexivity|].
  exact (sentinel_stays_black s Hcalls).
Defined.

(** C8.  Not every call of [add] comes to an end in a state reached by
    earlier calls.  A call that raises has already hung its node into the
    tree: after 30, 20, the call for 25 raises [TypeError]; the next call,
    for 10, returns, and its rotation runs with the node 25 in the place of
    the parent and closes the cycle 30 - 20 - 25 - 30; the descent for 27
    then runs round that cycle and no recursion budget is enough (the
    interpreter ends it with [RecursionError] at its recursion limit). *)
Theorem add_recurses_forever_after_raise :
  let s2 := snd (add_all 2 [30; 20] init) in
  let s3 := snd (add 2 25 s2) in
  let s4 := snd (add 2 10 s3) in
  calls init s4 /\
  fst (add 2 25 s2) = Raise TypeError /\
  fst (add 2 10 s3) = Ret (Some 4%nat) /\
  heap s4 !! 1%nat = Some (mkRBNode (Some 30) RED None
                                    (Some 2%nat) (Some NIL_LEAF)) /\
  heap s4 !! 2%nat = Some (mkRBNode (Some 20) RED (Some 1%nat)
                                    (Some 4%nat) (Some 3%nat)) /\
  heap s4 !! 3%nat = Some (mkRBNode (Some 25) BLACK (Some 2%nat)
                                    (Some 4%nat) (Some 1%nat)) /\
  forall fuel, add fuel 27 s4 = (OutOfFuel, s4).
Proof.
  intros s2 s3 s4. split.
  { apply (calls_step init s3 2 10 (fst (add 2 10 s3)) s4);
      [|apply surjective_pairing].
    apply (calls_step init s2 2 25 (fst (add 2 25 s2)) s3);
      [|apply surjective_pairing].
    apply add_all_calls. }
  split; [reflexivity|]. split; [reflexivity|].
  split; [reflexivity|]. split; [reflexivity|]. split; [reflexivity|].
  subst s2 s3. remember s4 as s eqn:Hs. subst s4. vm_compute in Hs.
  assert (forall fuel,
             inner_find fuel 27 1%nat s = (OutOfFuel, s) /\
             inner_find fuel 27 2%nat s = (OutOfFuel, s) /\
             inner_find fuel 27 3%nat s = (OutOfFuel, s)) as Hround.
  { induction fuel as [|fuel (IH1 & IH2 & IH3)]; [by repeat split|].
    subst s. repeat split; cbn [inner_find]; unfold bind, load, pyeq, pylt;
      cbn; assumption. }
  intros fuel. unfold add, _find_parent, bind, get_root.
  destruct (Hround fuel) as (E & _). subst s. cbn in *. by rewrite E.
Qed.

(** * Further properties of the code *)

(** ** What the writes of [add] leave alone *)

Section Stable.
Variable P : state -> Prop.
Hypothesis HP : stable P.

Lemma stable_set_left o x s : P s -> P (snd (set_left o x s)).
Proof.
  intros Hs. destruct o as [a|]; cbn; [|exact Hs].
  apply bind_load_keeps; [exact Hs|]. intros n Hn. cbn.
  by eapply HP.
Qed.

Lemma stable_set_right o x s : P s -> P (snd (set_right o x s)).
Proof.
  intros Hs. destruct o as [a|]; cbn; [|exact Hs].
  apply bind_load_keeps; [exact Hs|]. intros n Hn. cbn.
  by eapply HP.
Qed.

Lemma stable_set_color o c s : P s -> P (snd (set_color o c s)).
Proof.
  intros Hs. destruct o as [a|]; cbn; [|exact Hs].
  apply bind_load_keeps; [exact Hs|]. intros n Hn. cbn.
  by eapply HP.
Qed.

Lemma stable__right_rotation A X B Y C t s :
  P s -> P (snd (_right_rotation A X B Y C t s)).
Proof.
  intros Hs. unfold _right_rotation.
  do 4 (apply bind_keeps;
        [first [by apply stable_set_left | by apply stable_set_right]
        | clear s Hs; intros _ s Hs]).
  destruct t as [node|]; [|exact Hs].
  do 2 (apply bind_keeps;
        [by apply stable_set_color | clear s Hs; intros _ s Hs]).
  by apply stable_set_color.
Qed.

Lemma stable__left_rotation A X B Y C t s :
  P s -> P (snd (_left_rotation A X B Y C t s)).
Proof.
  intros Hs. unfold _left_rotation.
  do 4 (apply bind_keeps;
        [first [by apply stable_set_left | by apply stable_set_right]
        | clear s Hs; intros _ s Hs]).
  destruct t as [node|]; [|exact Hs].
  do 2 (apply bind_keeps;
        [by apply stable_set_color | clear s Hs; intros _ s Hs]).
  by apply stable_set_color.
Qed.

Lemma stable__try_rebalance node s : P s -> P (snd (_try_rebalance node s)).
Proof.
  intros Hs. unfold _try_rebalance.
  apply bind_load_keeps; [exact Hs|]. intros n _.
  destruct (parent n) as [p|]; [|exact Hs].
  apply bind_load_keeps; [exact Hs|]. intros pn _.
  destruct (parent pn) as [g|]; [|exact Hs].
  destruct (_ || _); [exact Hs|].
  apply bind_readonly_keeps; [apply readonly_pylt | exact Hs |]. intros lt _.
  apply bind_load_keeps; [exact Hs|]. intros gn _.
  apply bind_readonly_keeps; [apply readonly_RBNode_eq | exact Hs |].
  intros same _.
  apply bind_readonly_keeps; [apply readonly_py_node_eq | exact Hs |].
  intros is_nil _.
  apply bind_readonly_keeps; [destruct is_nil; ro | exact Hs |].
  intros black _. destruct black; [|exact Hs].
  destruct lt, same; cbn; try exact Hs;
    first [by apply stable__right_rotation | by apply stable__left_rotation].
Qed.
End Stable.

(** The course of [add] below a node found by the descent: the new object
    is created, then only [left], [right] and [color] attributes are
    written, and [count] is incremented if the rebalancing returned. *)
Lemma add_after_course v p d s r s1 :
  add_after v (p, Some d) s = (r, s1) ->
  exists s2,
    (forall P, stable P ->
       P (push (mkRBNode (Some v) RED (Some p)
                         (Some NIL_LEAF) (Some NIL_LEAF)) s) -> P s2) /\
    ((r = Ret (Some (length (heap s))) /\ s1 = bump s2) \/
     ((forall x, r <> Ret x) /\ s1 = s2)).
Proof.
  unfold add_after. rewrite (run_bind (alloc _) _ _ _ _ (run_alloc _ _)).
  set (s0 := push _ s).
  set (m1 := if String.eqb d "L" then _ else _).
  set (m2 := if String.eqb d "R" then _ else _).
  assert (forall P, stable P -> forall s', P s' -> P (snd (m1 s'))) as H1.
  { intros P HP s' Hs'. subst m1. destruct (String.eqb d "L");
      [by apply stable_set_left | exact Hs']. }
  assert (forall P, stable P -> forall s', P s' -> P (snd (m2 s'))) as H2.
  { intros P HP s' Hs'. subst m2. destruct (String.eqb d "R");
      [by apply stable_set_right | exact Hs']. }
  unfold bind.
  destruct (m1 s0) as [r1 sa] eqn:E1.
  assert (forall P, stable P -> P s0 -> P sa) as Ha.
  { intros P HP H. specialize (H1 P HP s0 H). by rewrite E1 in H1. }
  destruct r1 as [[]| | |];
    try (intros [= <- <-]; exists sa; split; [exact Ha | right; done]).
  destruct (m2 sa) as [r2 sb] eqn:E2.
  assert (forall P, stable P -> P s0 -> P sb) as Hb.
  { intros P HP H. specialize (H2 P HP sa (Ha P HP H)). by rewrite E2 in H2. }
  destruct r2 as [[]| | |];
    try (intros [= <- <-]; exists sb; split; [exact Hb | right; done]).
  destruct (_try_rebalance (length (heap s)) sb) as [r3 sc] eqn:E3.
  assert (forall P, stable P -> P s0 -> P sc) as Hc.
  { intros P HP H.
    pose proof (stable__try_rebalance P HP (length (heap s)) sb (Hb P HP H)) as H3.
    by rewrite E3 in H3. }
  destruct r3 as [[]| | |];
    try (intros [= <- <-]; exists sc; split; [exact Hc | right; done]).
  cbn. intros [= <- <-]. exists sc. split; [exact Hc | left; done].
Qed.

(** The three ways a call of [add] can go. *)
Lemma add_course fuel v s r s1 :
  add fuel v s = (r, s1) ->
  (root s = None /\ r = Ret None /\
   s1 = mkState (heap s ++ [mkRBNode (Some v) BLACK None
                                     (Some NIL_LEAF) (Some NIL_LEAF)])
                (count s + 1) (Some (length (heap s)))) \/
  (root s <> None /\ s1 = s /\
   ((forall x, r <> Ret x) \/
    (r = Ret None /\ exists p, _find_parent fuel v s = (Ret (p, None), s)))) \/
  (root s <> None /\
   exists p d, _find_parent fuel v s = (Ret (p, Some d), s) /\
               add_after v (p, Some d) s = (r, s1)).
Proof.
  unfold add. rewrite (run_bind get_root _ s (root s) s eq_refl).
  destruct (root s) as [r0|] eqn:Hroot.
  - intros H. right.
    pose proof (readonly__find_parent fuel v s) as Hro.
    unfold bind in H. destruct (_find_parent fuel v s) as [rf sf] eqn:Ef.
    cbn in Hro. subst sf.
    destruct rf as [[p [d|]]| | |].
    + right. split; [done|]. eauto.
    + left. cbn in H. injection H as <- <-. split; [done|]. split; [done|].
      right. eauto.
    + left. injection H as <- <-. split; [done|]. split; [done|]. by left.
    + left. injection H as <- <-. split; [done|]. split; [done|]. by left.
    + left. injection H as <- <-. split; [done|]. split; [done|]. by left.
  - intros H. left. cbn in H. injection H as <- <-. done.
Qed.

Lemma stable_count c : stable (fun s => count s = c).
Proof. intros s a n m H _ _ _. exact H. Qed.

Lemma stable_root r : stable (fun s => root s = r).
Proof. intros s a n m H _ _ _. exact H. Qed.

Lemma stable_length k : stable (fun s => length (heap s) = k).
Proof. intros s a n m H _ _ _. unfold upd. cbn. by rewrite length_insert. Qed.

Lemma stable_node a v p :
  stable (fun s => exists n, heap s !! a = Some n /\ value n = v /\ parent n = p).
Proof.
  intros s b n m (n0 & Hn0 & Hv & Hp) Hm Hnv Hnp. unfold upd. cbn.
  destruct (decide (b = a)) as [->|Hne].
  - exists n. rewrite list_lookup_insert_eq by (by eapply lookup_lt_Some).
    split; [done|]. assert (m = n0) as E.
    { apply (inj Some). transitivity (heap s !! a);
        [symmetry; exact Hm | exact Hn0]. }
    rewrite Hnv, Hnp, E. done.
  - exists n0. by rewrite list_lookup_insert_ne.
Qed.


(** X1.  [count] moves only when a call returns after creating a node: a
    call that returns the new node has incremented [count] by one; a call
    that returns [None] has either created the root (and incremented
    [count]) or left the whole state as it was; a call that raises leaves
    [count] as it was. *)
Theorem add_count_step fuel v s r s1 :
  add fuel v s = (r, s1) ->
  match r with
  | Ret (Some _) => count s1 = count s + 1
  | Ret None => (root s = None /\ count s1 = count s + 1) \/ s1 = s
  | _ => count s1 = count s
  end.
Proof.
  intros H.
  destruct (add_course fuel v s r s1 H)
    as [(Hroot & -> & ->)|[(_ & -> & Hr)|(_ & p & d & _ & Hafter)]].
  - left. done.
  - destruct Hr as [Hr|[-> _]]; [|by right].
    destruct r as [[x|]| | |]; try done; exfalso; by eapply Hr.
  - destruct (add_after_course v p d s r s1 Hafter)
      as (s2 & Hst & [[-> ->]|[Hr ->]]).
    + cbn. f_equal. apply (Hst _ (stable_count (count s))). reflexivity.
    + assert (count s2 = count s)
        by (apply (Hst _ (stable_count (count s))); reflexivity).
      destruct r as [[x|]| | |]; try done; exfalso; by eapply Hr.
Qed.

Lemma add_count_step_witness :
  let s2 := snd (add_all 2 [10; 30] init) in
  add 2 20 s2 = (Raise TypeError, snd (add 2 20 s2)) /\
  count (snd (add 2 20 s2)) = count s2.
Proof.
  intros s2.
  assert (add 2 20 s2 = (Raise TypeError, snd (add 2 20 s2))) as H
    by reflexivity.
  split; [exact H|]. exact (add_count_step 2 20 s2 _ _ H).
Defined.

(** X2.  When [add] returns a node, that node is an object created by this
    call and it holds the inserted value. *)
Theorem add_returns_node_with_value fuel v s x s1 :
  add fuel v s = (Ret (Some x), s1) ->
  heap s !! x = None /\
  exists n, heap s1 !! x = Some n /\ value n = Some v.
Proof.
  intros H.
  destruct (add_course fuel v s _ s1 H)
    as [(_ & [=] & _)|[(_ & _ & [Hr|[[=] _]])|(_ & p & d & _ & Hafter)]];
    [exfalso; by eapply Hr|].
  destruct (add_after_course v p d s _ s1 Hafter)
    as (s2 & Hst & [[[= ->] ->]|[Hr _]]); [|exfalso; by eapply Hr].
  split; [by apply lookup_ge_None_2|].
  destruct (Hst _ (stable_node (length (heap s)) (Some v) (Some p)))
    as (n & Hn & Hv & _); [|by exists n].
  eexists. split; [apply heap_push_new | done].
Qed.

Lemma add_returns_node_with_value_witness :
  let s2 := snd (add_all 2 [30; 20] init) in
  add 2 10 s2 = (Ret (Some 3%nat), snd (add 2 10 s2)) /\
  heap s2 !! 3%nat = None /\
  exists n, heap (snd (add 2 10 s2)) !! 3%nat = Some n /\ value n = Some 10.
Proof.
  intros s2.
  assert (add 2 10 s2 = (Ret (Some 3%nat), snd (add 2 10 s2))) as H
    by reflexivity.
  split; [exact H|]. exact (add_returns_node_with_value 2 10 s2 _ _ H).
Defined.

(** X3.  [add] never reassigns what it has once set: whatever the call does,
    every object that existed before still exists and has the same [value]
    and the same [parent], and a root that was set is still the root.  In
    particular no rotation moves a parent link or the root. *)
Theorem add_keeps_value_parent_root fuel v s r s1 a n :
  add fuel v s = (r, s1) ->
  heap s !! a = Some n ->
  (exists n1, heap s1 !! a = Some n1 /\
              value n1 = value n /\ parent n1 = parent n) /\
  (forall r0, root s = Some r0 -> root s1 = Some r0).
Proof.
  intros H Ha.
  destruct (add_course fuel v s r s1 H)
    as [(Hroot & -> & ->)|[(_ & -> & _)|(_ & p & d & _ & Hafter)]].
  - split; [|by rewrite Hroot]. exists n. cbn.
    rewrite lookup_app_l by (by eapply lookup_lt_Some). done.
  - split; [by exists n | done].
  - destruct (add_after_course v p d s r s1 Hafter) as (s2 & Hst & Hs1).
    assert (heap s1 = heap s2 /\ root s1 = root s2) as [Eh Er]
      by (destruct Hs1 as [[_ ->]|[_ ->]]; done).
    rewrite Eh, Er. split.
    + apply (Hst _ (stable_node a (value n) (parent n))).
      exists n. rewrite heap_push_old by (by eapply lookup_lt_Some). done.
    + intros r0 Hr0. by apply (Hst _ (stable_root (Some r0))).
Qed.

Lemma add_keeps_value_parent_root_witness :
  let s2 := snd (add_all 2 [10; 20] init) in
  let s3 := snd (add 2 30 s2) in
  add 2 30 s2 = (Ret (Some 3%nat), s3) /\
  heap s2 !! 2%nat = Some (mkRBNode (Some 20) RED (Some 1%nat)
                                    (Some NIL_LEAF) (Some NIL_LEAF)) /\
  heap s3 !! 2%nat = Some (mkRBNode (Some 20) BLACK (Some 1%nat)
                                    (Some 1%nat) (Some 3%nat)) /\
  (exists n1, heap s3 !! 2%nat = Some n1 /\
              value n1 = Some 20 /\ parent n1 = Some 1%nat) /\
  (forall r0, root s2 = Some r0 -> root s3 = Some r0).
Proof.
  intros s2 s3.
  assert (add 2 30 s2 = (Ret (Some 3%nat), s3)) as H by reflexivity.
  assert (heap s2 !! 2%nat = Some (mkRBNode (Some 20) RED (Some 1%nat)
                                    (Some NIL_LEAF) (Some NIL_LEAF))) as Hn
    by reflexivity.
  split; [exact H|]. split; [exact Hn|]. split; [reflexivity|].
  exact (add_keeps_value_parent_root 2 30 s2 _ s3 2%nat _ H Hn).
Defined.





(** ** [_find_parent] and [__eq__] on any store *)

Lemma pyeq_Some_true v o : pyeq (Some v) o = true -> o = Some v.
Proof.
  destruct o as [w|]; unfold pyeq; [|discriminate].
  intros H. apply Z.eqb_eq in H. by subst.
Qed.

Lemma inner_find_sound fuel v : forall p s q d s1,
  inner_find fuel v p s = (Ret (q, d), s1) ->
  exists qn qv,
    heap s !! q = Some qn /\ value qn = Some qv /\
    match d with
    | None => v = qv
    | Some dir =>
        (dir = "L"%string /\ v < qv /\
         exists c cn, left qn = Some c /\ heap s !! c = Some cn /\
                      value cn = None) \/
        (dir = "R"%string /\ qv < v /\
         exists c cn, right qn = Some c /\ heap s !! c = Some cn /\
                      value cn = None)
    end.
Proof.
  induction fuel as [|fuel IH]; intros p s q d s1 H; [discriminate|].
  cbn [inner_find] in H.
  apply bind_Ret_inv in H as (pn & s2 & Hl & H).
  apply load_Ret_inv in Hl as [-> Hpn].
  destruct (pyeq (Some v) (value pn)) eqn:Eeq.
  { injection H as <- <- <-. apply pyeq_Some_true in Eeq. eauto. }
  apply bind_Ret_inv in H as (lt & s2 & Hlt & H).
  apply pylt_Ret_inv in Hlt as (-> & x & pv & [= <-] & Hpv & ->).
  destruct (Z.ltb_spec v pv) as [Hlt|Hge].
  - apply bind_Ret_inv in H as (l & s2 & Hl & H).
    apply attr_Ret_inv in Hl as (c & Hc & -> & Hcn). rewrite Hc in H.
    destruct (value l) as [lv|] eqn:El; cbn [is_None] in H; [by eapply IH|].
    injection H as <- <- <-. exists pn, pv. split; [done|]. split; [done|].
    left. eauto 10.
  - apply bind_Ret_inv in H as (r & s2 & Hr & H).
    apply attr_Ret_inv in Hr as (c & Hc & -> & Hcn). rewrite Hc in H.
    destruct (value r) as [rv|] eqn:Er; cbn [is_None] in H; [by eapply IH|].
    injection H as <- <- <-. exists pn, pv. split; [done|]. split; [done|].
    right. split; [done|]. split; [|eauto].
    rewrite Hpv in Eeq. unfold pyeq in Eeq. apply Z.eqb_neq in Eeq. lia.
Qed.

(** X5.  What [_find_parent] returns is sound on every store: the node it
    returns holds a value; with direction [None] that value is the one
    looked for; with direction 'L' (or 'R') the value looked for is smaller
    (or greater) and the node's left (or right) child holds no value.  The
    store is not changed. *)
Theorem _find_parent_sound fuel v s p d s1 :
  _find_parent fuel v s = (Ret (p, d), s1) ->
  s1 = s /\
  exists pn pv,
    heap s !! p = Some pn /\ value pn = Some pv /\
    match d with
    | None => v = pv
    | Some dir =>
        (dir = "L"%string /\ v < pv /\
         exists c cn, left pn = Some c /\ heap s !! c = Some cn /\
                      value cn = None) \/
        (dir = "R"%string /\ pv < v /\
         exists c cn, right pn = Some c /\ heap s !! c = Some cn /\
                      value cn = None)
    end.
Proof.
  intros H. split.
  - pose proof (readonly__find_parent fuel v s) as Hro. by rewrite H in Hro.
  - unfold _find_parent in H.
    rewrite (run_bind get_root _ s (root s) s eq_refl) in H.
    destruct (root s) as [r|]; [|discriminate]. by eapply inner_find_sound.
Qed.

Lemma _find_parent_sound_witness :
  let s := snd (add_all 2 [30; 20; 40] init) in
  _find_parent 2 25 s = (Ret (2%nat, Some "R"%string), s) /\
  exists pn pv,
    heap s !! 2%nat = Some pn /\ value pn = Some pv /\
    ((("R" = "L")%string /\ 25 < pv /\
      exists c cn, left pn = Some c /\ heap s !! c = Some cn /\
                   value cn = None) \/
     (("R" = "R")%string /\ pv < 25 /\
      exists c cn, right pn = Some c /\ heap s !! c = Some cn /\
                   value cn = None)).
Proof.
  intros s.
  assert (_find_parent 2 25 s = (Ret (2%nat, Some "R"%string), s)) as H
    by reflexivity.
  split; [exact H|]. exact (proj2 (_find_parent_sound 2 25 s _ _ s H)).
Defined.

Lemma pyeq_sym a b : pyeq a b = pyeq b a.
Proof. destruct a, b; unfold pyeq; try done. apply Z.eqb_sym. Qed.

Lemma Shades_eqb_sym a b : Shades_eqb a b = Shades_eqb b a.
Proof. by destruct a, b. Qed.

Lemma pyeq_trans a b c : pyeq a b = true -> pyeq b c = true -> pyeq a c = true.
Proof.
  destruct a, b, c; unfold pyeq; try done.
  rewrite !Z.eqb_eq. congruence.
Qed.

Lemma Shades_eqb_trans a b c :
  Shades_eqb a b = true -> Shades_eqb b c = true -> Shades_eqb a c = true.
Proof. by destruct a, b, c. Qed.

(** What a comparison that returns has read and how it decides. *)
Lemma RBNode_eq_Ret_inv a b s r s1 :
  RBNode_eq a (Some b) s = (Ret r, s1) ->
  s1 = s /\
  exists an bn,
    heap s !! a = Some an /\ heap s !! b = Some bn /\
    ((value an = None /\ value bn = None /\ r = true) \/
     (~ (value an = None /\ value bn = None) /\
      exists same,
        r = pyeq (value an) (value bn)
            && Shades_eqb (color an) (color bn) && same /\
        match parent an, parent bn with
        | Some pa, Some pb =>
            exists pan pbn,
              heap s !! pa = Some pan /\ heap s !! pb = Some pbn /\
              same = pyeq (value pan) (value pbn)
                     && Shades_eqb (color pan) (color pbn)
        | None, None => same = true
        | _, _ => same = false
        end)).
Proof.
  intros H. split.
  { pose proof (readonly_RBNode_eq a (Some b) s) as Hro. by rewrite H in Hro. }
  unfold RBNode_eq in H.
  apply bind_Ret_inv in H as (an & s2 & Hl & H).
  apply load_Ret_inv in Hl as [-> Han].
  apply bind_Ret_inv in H as (nil_both & s2 & Hnb & H).
  assert (s2 = s /\ exists bn, heap s !! b = Some bn /\
            (nil_both = true <-> value an = None /\ value bn = None))
    as (-> & bn & Hbn & Hnil).
  { destruct (value an) as [av|] eqn:Ea; cbn [is_None] in Hnb.
    - injection Hnb as <- <-. split; [done|].
      cbn [attr] in H. apply bind_Ret_inv in H as (bn & s2 & Hl & _).
      apply load_Ret_inv in Hl as [-> Hbn]. exists bn. split; [done|].
      split; [done|]. by intros [[=] _].
    - apply bind_Ret_inv in Hnb as (bn & s3 & Hl & Hnb).
      apply attr_Ret_inv in Hl as (b' & [= <-] & -> & Hbn).
      injection Hnb as <- <-. split; [done|]. exists bn. split; [done|].
      destruct (value bn); cbn; split; try done. by intros [_ [=]]. }
  exists an, bn. split; [done|]. split; [done|].
  destruct nil_both.
  { injection H as <- <-. left. destruct (proj1 Hnil eq_refl). done. }
  right. split; [intros Hn; by apply Hnil in Hn|].
  apply bind_Ret_inv in H as (bn' & s2 & Hl & H).
  apply attr_Ret_inv in Hl as (b' & [= <-] & -> & Hbn').
  assert (bn' = bn) as ->.
  { apply (inj Some). transitivity (heap s !! b); [by symmetry | done]. }
  apply bind_Ret_inv in H as (same & s2 & Hsame & H).
  injection H as <- <-. exists same. split; [done|].
  destruct (parent an) as [pa|], (parent bn) as [pb|];
    try (by injection Hsame as <- <-).
  apply bind_Ret_inv in Hsame as (pan & s3 & Hl & Hsame).
  apply load_Ret_inv in Hl as [-> Hpan].
  apply bind_Ret_inv in Hsame as (pbn & s3 & Hl & Hsame).
  apply load_Ret_inv in Hl as [-> Hpbn].
  injection Hsame as <- <-. eauto.
Qed.

Lemma RBNode_eq_Ret_intro a b s an bn r :
  heap s !! a = Some an -> heap s !! b = Some bn ->
  ((value an = None /\ value bn = None /\ r = true) \/
   (~ (value an = None /\ value bn = None) /\
    exists same,
      r = pyeq (value an) (value bn)
          && Shades_eqb (color an) (color bn) && same /\
      match parent an, parent bn with
      | Some pa, Some pb =>
          exists pan pbn,
            heap s !! pa = Some pan /\ heap s !! pb = Some pbn /\
            same = pyeq (value pan) (value pbn)
                   && Shades_eqb (color pan) (color pbn)
      | None, None => same = true
      | _, _ => same = false
      end)) ->
  RBNode_eq a (Some b) s = (Ret r, s).
Proof.
  intros Han Hbn H. unfold RBNode_eq.
  rewrite (run_bind _ _ _ _ _ (run_load _ _ _ Han)). cbn [attr].
  destruct H as [(Ha & Hb & ->)|(Hnn & same & -> & Hsame)].
  - rewrite Ha. cbn [is_None]. rewrite run_assoc.
    rewrite (run_bind _ _ _ _ _ (run_load _ _ _ Hbn)).
    rewrite Hb. reflexivity.
  - assert ((nil_both <- (if is_None (value an)
                          then o <- load b ;; ret (is_None (value o))
                          else ret false) ;; ret nil_both) s
            = (Ret false, s)) as Hnb.
    { destruct (value an) as [av|] eqn:Ea; cbn [is_None]; [reflexivity|].
      rewrite run_assoc, (run_bind _ _ _ _ _ (run_load _ _ _ Hbn)).
      destruct (value bn) eqn:Eb; [reflexivity|]. exfalso. by apply Hnn. }
    apply bind_Ret_inv in Hnb as (nb & s2 & Hnb & E).
    injection E as -> ->. rewrite (run_bind _ _ _ _ _ Hnb).
    rewrite (run_bind _ _ _ _ _ (run_load _ _ _ Hbn)).
    destruct (parent an) as [pa|], (parent bn) as [pb|].
    + destruct Hsame as (pan & pbn & Hpa & Hpb & ->).
      rewrite run_assoc, (run_bind _ _ _ _ _ (run_load _ _ _ Hpa)).
      rewrite run_assoc, (run_bind _ _ _ _ _ (run_load _ _ _ Hpb)).
      reflexivity.
    + subst same. reflexivity.
    + subst same. reflexivity.
    + subst same. reflexivity.
Qed.

(** X6.  [__eq__] is symmetric on every store: when [a == b] returns,
    [b == a] returns the same answer. *)
Theorem RBNode_eq_sym a b s r s1 :
  RBNode_eq a (Some b) s = (Ret r, s1) ->
  RBNode_eq b (Some a) s = (Ret r, s1).
Proof.
  intros H.
  destruct (RBNode_eq_Ret_inv a b s r s1 H) as (-> & an & bn & Ha & Hb & Hr).
  apply (RBNode_eq_Ret_intro b a s bn an r Hb Ha).
  destruct Hr as [(? & ? & ?)|(Hnn & same & -> & Hsame)]; [by left|].
  right. split; [tauto|]. exists same. split.
  - by rewrite (pyeq_sym (value an)), (Shades_eqb_sym (color an)).
  - destruct (parent an) as [pa|], (parent bn) as [pb|]; try done.
    destruct Hsame as (pan & pbn & Hpa & Hpb & ->). exists pbn, pan.
    by rewrite (pyeq_sym (value pan)), (Shades_eqb_sym (color pan)).
Qed.

Lemma RBNode_eq_sym_witness :
  let s := snd (add_all 2 [30; 20; 40] init) in
  RBNode_eq 2%nat (Some 3%nat) s = (Ret false, s) /\
  RBNode_eq 3%nat (Some 2%nat) s = (Ret false, s).
Proof.
  intros s.
  assert (RBNode_eq 2%nat (Some 3%nat) s = (Ret false, s)) as H
    by reflexivity.
  split; [exact H|]. exact (RBNode_eq_sym _ _ _ _ _ H).
Defined.

(** X7.  [__eq__] is transitive on every store: when [a == b] and [b == c]
    both answer [True], so does [a == c]. *)
Theorem RBNode_eq_trans a b c s :
  RBNode_eq a (Some b) s = (Ret true, s) ->
  RBNode_eq b (Some c) s = (Ret true, s) ->
  RBNode_eq a (Some c) s = (Ret true, s).
Proof.
  intros Hab Hbc.
  destruct (RBNode_eq_Ret_inv a b s _ _ Hab) as (_ & an & bn & Ha & Hb & Hr1).
  destruct (RBNode_eq_Ret_inv b c s _ _ Hbc) as (_ & bn' & cn & Hb' & Hc & Hr2).
  assert (bn' = bn) as ->.
  { apply (inj Some). transitivity (heap s !! b); [by symmetry | done]. }
  apply (RBNode_eq_Ret_intro a c s an cn true Ha Hc).
  destruct Hr1 as [(Ean & Ebn & _)|(Hn1 & same1 & E1 & Hs1)];
    destruct Hr2 as [(Ebn' & Ecn & _)|(Hn2 & same2 & E2 & Hs2)].
  - by left.
  - symmetry in E2. apply andb_true_iff in E2 as [E2 _].
    apply andb_true_iff in E2 as [E2 _]. rewrite Ebn in E2.
    destruct (value cn); [discriminate|]. exfalso. by apply Hn2.
  - symmetry in E1. apply andb_true_iff in E1 as [E1 _].
    apply andb_true_iff in E1 as [E1 _]. rewrite Ebn' in E1.
    destruct (value an); [discriminate|]. exfalso. by apply Hn1.
  - symmetry in E1, E2.
    apply andb_true_iff in E1 as [E1 ->]. apply andb_true_iff in E1 as [V1 C1].
    apply andb_true_iff in E2 as [E2 ->]. apply andb_true_iff in E2 as [V2 C2].
    right. split.
    { intros [Ean Ecn]. rewrite Ean in V1.
      destruct (value bn) eqn:Ebn; [discriminate|]. by apply Hn1. }
    exists true. split.
    { by rewrite (pyeq_trans _ _ _ V1 V2), (Shades_eqb_trans _ _ _ C1 C2). }
    destruct (parent an) as [pa|], (parent bn) as [pb|],
      (parent cn) as [pc|]; try done.
    destruct Hs1 as (pan & pbn & Hpa & Hpb & Es1).
    destruct Hs2 as (pbn' & pcn & Hpb' & Hpc & Es2).
    assert (pbn' = pbn) as ->.
    { apply (inj Some). transitivity (heap s !! pb); [by symmetry | done]. }
    exists pan, pcn. split; [done|]. split; [done|].
    symmetry in Es1, Es2.
    apply andb_true_iff in Es1 as [V3 C3]. apply andb_true_iff in Es2 as [V4 C4].
    by rewrite (pyeq_trans _ _ _ V3 V4), (Shades_eqb_trans _ _ _ C3 C4).
Qed.

Lemma RBNode_eq_trans_witness :
  let s := snd (add_all 3 [10; 20; 30; 20; 30; 20; 30] init) in
  RBNode_eq 2%nat (Some 4%nat) s = (Ret true, s) /\
  RBNode_eq 4%nat (Some 6%nat) s = (Ret true, s) /\
  RBNode_eq 2%nat (Some 6%nat) s = (Ret true, s).
Proof.
  intros s.
  assert (RBNode_eq 2%nat (Some 4%nat) s = (Ret true, s)) as Hab
    by reflexivity.
  assert (RBNode_eq 4%nat (Some 6%nat) s = (Ret true, s)) as Hbc
    by reflexivity.
  split; [exact Hab|]. split; [exact Hbc|].
  exact (RBNode_eq_trans _ _ _ _ Hab Hbc).
Defined.

(** X8.  [__eq__] is reflexive: comparing a node of the store with itself
    returns [True], provided the node's [parent], when it has one, is in the
    store. *)
Theorem RBNode_eq_refl a s n :
  heap s !! a = Some n ->
  (forall p, parent n = Some p -> is_Some (heap s !! p)) ->
  RBNode_eq a (Some a) s = (Ret true, s).
Proof.
  intros Ha Hp. apply (RBNode_eq_Ret_intro a a s n n true Ha Ha).
  destruct (value n) as [v|] eqn:Ev; [right | by left].
  split; [by intros [? _]|]. exists true.
  rewrite pyeq_refl, Shades_eqb_refl. split; [done|].
  destruct (parent n) as [p|]; [|done].
  destruct (Hp p eq_refl) as [pn Hpn]. exists pn, pn.
  by rewrite pyeq_refl, Shades_eqb_refl.
Qed.

Lemma RBNode_eq_refl_witness :
  let s := snd (add_all 2 [30; 20] init) in
  heap s !! 2%nat = Some (mkRBNode (Some 20) RED (Some 1%nat)
                                   (Some NIL_LEAF) (Some NIL_LEAF)) /\
  RBNode_eq 2%nat (Some 2%nat) s = (Ret true, s).
Proof.
  intros s.
  assert (heap s !! 2%nat = Some (mkRBNode (Some 20) RED (Some 1%nat)
                                   (Some NIL_LEAF) (Some NIL_LEAF))) as Hn
    by reflexivity.
  split; [exact Hn|].
  apply (RBNode_eq_refl 2%nat s _ Hn).
  intros p [= <-]. eexists. reflexivity.
Defined.

(** ** Trees built by calls that returned *)

(** The walk of such a tree, read off its form. *)
Lemma returned_walk s fuel vs s1 :
  returned s ->
  RedBlackTree_iter fuel s = (Ret vs, s1) ->
  s1 = s /\
  ((root s = None /\ vs = []) \/
   exists r rv ls rc,
     root s = Some r /\ shape_at s r rv ls rc /\ vs = walk rv ls rc).
Proof.
  intros Hret Hiter.
  destruct (returned_shape s Hret) as [(c0 & l0 & r0 & H0) Hs].
  destruct (root s) as [r|] eqn:Hroot.
  - destruct Hs as (rv & ls & rc & Hs).
    destruct (RedBlackTree_iter_shape s r rv ls rc c0 l0 r0 fuel H0 Hroot Hs)
      as [E|E]; rewrite E in Hiter; [|discriminate].
    injection Hiter as <- <-. split; [done|]. right. eauto 10.
  - unfold RedBlackTree_iter in Hiter.
    rewrite (run_bind get_root _ s (root s) s eq_refl), Hroot in Hiter.
    injection Hiter as <- <-. split; [done|]. by left.
Qed.

Lemma spine_values_sorted h ls : forall p pv e,
  spine h p pv ls e ->
  StronglySorted opt_lt (spine_values ls) /\
  forall o, In o (spine_values ls) -> opt_lt o (Some pv).
Proof.
  induction ls as [|[a av] ls IH]; intros p pv e Hsp.
  - split; [constructor | intros ? []].
  - destruct Hsp as (_ & Hav & _ & Hsp).
    destruct (IH a av e Hsp) as [Hsorted Hbelow].
    unfold spine_values in *. cbn [map rev snd]. split.
    + apply StronglySorted_app. split; [|split; [done|]].
      * intros x1 x2 Hx1 Hx2. apply list_elem_of_In in Hx1.
        apply list_elem_of_In in Hx2. destruct Hx2 as [<-|[]]. by apply Hbelow.
      * repeat constructor.
    + intros o Hin. apply in_app_or in Hin as [Hin|[<-|[]]]; [|exact Hav].
      specialize (Hbelow o Hin). destruct o as [x|]; cbn in *; [lia|done].
Qed.

Lemma walk_sorted s r rv ls rc :
  shape_at s r rv ls rc -> StronglySorted opt_lt (walk rv ls rc).
Proof.
  intros (_ & _ & Hsp & Hleaf & _).
  destruct (spine_values_sorted _ _ _ _ _ Hsp) as [Hsorted Hbelow].
  unfold walk. apply StronglySorted_app. split; [|split; [done|]].
  - intros x1 x2 Hx1 Hx2. apply list_elem_of_In in Hx1.
    apply list_elem_of_In in Hx2. specialize (Hbelow x1 Hx1).
    destruct Hx2 as [<-|Hx2]; [done|].
    destruct rc as [[c cv]|]; [|done]. destruct Hx2 as [<-|[]].
    destruct Hleaf as (_ & Hcv & _). destruct x1 as [x|]; cbn in *; [lia|done].
  - destruct rc as [[c cv]|]; [|repeat constructor].
    destruct Hleaf as (_ & Hcv & _). repeat constructor. exact Hcv.
Qed.

(** X9.  After calls of [add] that all returned, the in-order walk yields
    integers in strictly increasing order (so no value twice), and never
    more values than [count]. *)
Theorem returned_walk_increasing s fuel vs s1 :
  returned s ->
  RedBlackTree_iter fuel s = (Ret vs, s1) ->
  StronglySorted opt_lt vs /\ Z.of_nat (length vs) <= count s.
Proof.
  intros Hret Hiter.
  destruct (returned_walk s fuel vs s1 Hret Hiter)
    as (_ & [(Hroot & ->)|(r & rv & ls & rc & Hroot & Hs & ->)]).
  - split; [constructor|]. cbn.
    destruct (returned_shape s Hret) as [_ Hc]. by rewrite Hroot in Hc.
  - split; [by eapply walk_sorted|].
    destruct Hs as (_ & _ & _ & _ & Hcnt). unfold walk, spine_values.
    rewrite length_app, length_rev, length_map. cbn [length].
    destruct rc as [[c cv]|]; cbn [length]; lia.
Qed.

Lemma returned_walk_increasing_witness :
  let s := snd (add_all 3 [30; 20; 10; 40] init) in
  returned s /\
  RedBlackTree_iter 3 s = (Ret [Some 10; Some 20; Some 30; Some 40], s) /\
  StronglySorted opt_lt [Some 10; Some 20; Some 30; Some 40] /\
  Z.of_nat (length [Some 10; Some 20; Some 30; Some 40]) <= count s.
Proof.
  intros s.
  assert (returned s) as Hret.
  { apply (add_all_returned 3 [30; 20; 10; 40] init
             [None; Some 2%nat; Some 3%nat; Some 4%nat] s returned_init).
    reflexivity. }
  assert (RedBlackTree_iter 3 s
          = (Ret [Some 10; Some 20; Some 30; Some 40], s)) as Hiter
    by reflexivity.
  split; [exact Hret|]. split; [exact Hiter|].
  exact (returned_walk_increasing s 3 _ s Hret Hiter).
Defined.

Lemma descend_None v ls : forall a av,
  snd (descend v a av ls) = None -> exists x, In (x, v) ((a, av) :: ls).
Proof.
  induction ls as [|[b bv] ls IH]; intros a av; cbn [descend];
    destruct (Z.eqb_spec v av) as [->|Hne]; try (intros _; exists a; by left);
    destruct (v <? av); try done.
  intros H. destruct (IH b bv H) as [x Hx]. exists x. by right.
Qed.

Lemma locate_None v r rv ls rc :
  snd (locate v r rv ls rc) = None -> In (Some v) (walk rv ls rc).
Proof.
  unfold locate, walk.
  destruct (Z.eqb_spec v rv) as [->|Hne].
  { intros _. apply in_or_app. right. by left. }
  destruct (v <? rv).
  - destruct ls as [|[a av] ls]; [done|]. intros H.
    apply in_or_app. left. apply In_spine_values. by apply descend_None.
  - destruct rc as [[c cv]|]; [|done]. cbn [descend].
    destruct (Z.eqb_spec v cv) as [->|Hnc]; [|by destruct (v <? cv)].
    intros _. apply in_or_app. right. right. by left.
Qed.

(** X10.  On a non-empty tree built by calls that returned, [add] returns
    [None] exactly for the values the in-order walk yields. *)
Theorem add_returns_None_iff_walked s v fuel fuel1 vs s1 :
  returned s ->
  root s <> None ->
  count s <= Z.of_nat fuel ->
  RedBlackTree_iter fuel1 s = (Ret vs, s1) ->
  fst (add fuel v s) = Ret None <-> In (Some v) vs.
Proof.
  intros Hret Hroot Hfuel Hiter.
  destruct (returned_walk s fuel1 vs s1 Hret Hiter)
    as (_ & [(Hnone & _)|(r & rv & ls & rc & Hr & Hs & ->)]); [done|].
  destruct (returned_shape s Hret) as [(c0 & l0 & r0 & H0) _].
  assert (add fuel v s = add_after v (locate v r rv ls rc) s) as ->.
  { unfold add. rewrite (run_bind get_root _ s (root s) s eq_refl), Hr.
    destruct (_find_parent_shape s v r rv ls rc c0 l0 r0 H0 Hr Hs fuel)
      as [F|[Hlt _]]; [|lia].
    by rewrite (run_bind _ _ _ _ _ F). }
  split.
  - intros H. apply (locate_None v r).
    destruct (locate v r rv ls rc) as [p [d|]]; [|done]. exfalso.
    destruct (add_after v (p, Some d) s) as [res s2] eqn:E. cbn in H. subst res.
    destruct (add_after_course v p d s _ s2 E) as (_ & _ & [[[=] _]|[Hr' _]]).
    exact (Hr' None eq_refl).
  - intros Hin. pose proof (locate_present s v r rv ls rc Hs Hin) as Hloc.
    destruct (locate v r rv ls rc) as [p d]. cbn in Hloc. by subst d.
Qed.

Lemma add_returns_None_iff_walked_witness :
  let s := snd (add_all 3 [30; 20; 10; 40] init) in
  returned s /\ root s <> None /\ count s <= Z.of_nat 4 /\
  RedBlackTree_iter 3 s = (Ret [Some 10; Some 20; Some 30; Some 40], s) /\
  (fst (add 4 20 s) = Ret None <->
   In (Some 20) [Some 10; Some 20; Some 30; Some 40]).
Proof.
  intros s.
  assert (returned s) as Hret.
  { apply (add_all_returned 3 [30; 20; 10; 40] init
             [None; Some 2%nat; Some 3%nat; Some 4%nat] s returned_init).
    reflexivity. }
  assert (root s <> None) as Hroot by (vm_compute; discriminate).
  assert (count s <= Z.of_nat 4) as Hfuel by (vm_compute; discriminate).
  assert (RedBlackTree_iter 3 s
          = (Ret [Some 10; Some 20; Some 30; Some 40], s)) as Hiter
    by reflexivity.
  split; [exact Hret|]. split; [exact Hroot|]. split; [exact Hfuel|].
  split; [exact Hiter|].
  exact (add_returns_None_iff_walked s 20 4 3 _ s Hret Hroot Hfuel Hiter).
Defined.

(** X11.  On a tree built by calls that returned, [has_children] of the
    root answers [True] exactly when the in-order walk yields more than one
    value. *)
Theorem has_children_root s r fuel vs s1 :
  returned s ->
  root s = Some r ->
  RedBlackTree_iter fuel s = (Ret vs, s1) ->
  has_children r s = (Ret (1 <? length vs)%nat, s).
Proof.
  intros Hret Hroot Hiter.
  destruct (returned_walk s fuel vs s1 Hret Hiter)
    as (_ & [(Hnone & _)|(r' & rv & ls & rc & Hr & Hs & ->)]); [congruence|].
  assert (r' = r) as -> by congruence.
  destruct (returned_shape s Hret) as [(c0 & l0 & r0 & H0) _].
  destruct Hs as (_ & [col Hrec] & Hsp & Hleaf & _).
  unfold has_children, walk, spine_values. run.
  destruct ls as [|[a av] ls]; cbn [hd_ref] in *; run.
  - destruct rc as [[c cv]|]; cbn [leaf_ref] in *; run; [|reflexivity].
    destruct Hleaf as (_ & _ & Hcrec). run. reflexivity.
  - destruct Hsp as (_ & _ & Harec & _). run.
    cbn [map rev]. rewrite !length_app. cbn [length].
    replace (1 <? _)%nat with true; [reflexivity|].
    symmetry. apply Nat.ltb_lt. lia.
Qed.

Lemma has_children_root_witness :
  let s := snd (add_all 2 [10; 20; 30] init) in
  returned s /\ root s = Some 1%nat /\
  RedBlackTree_iter 2 s = (Ret [Some 10], s) /\
  has_children 1%nat s = (Ret false, s).
Proof.
  intros s.
  assert (returned s) as Hret.
  { apply (add_all_returned 2 [10; 20; 30] init
             [None; Some 2%nat; Some 3%nat] s returned_init).
    reflexivity. }
  assert (root s = Some 1%nat) as Hroot by reflexivity.
  assert (RedBlackTree_iter 2 s = (Ret [Some 10], s)) as Hiter by reflexivity.
  split; [exact Hret|]. split; [exact Hroot|]. split; [exact Hiter|].
  exact (has_children_root s 1%nat 2 _ s Hret Hroot Hiter).
Defined.

(** ** The exact outcome of [add] on such a tree

    The cases of the descent once more, now with the outcome spelled out:
    where the call returns, the form of the tree it leaves; where it does
    not, the exception. *)

Ltac finish_lands :=
  erewrite (run_bind incr_count) by apply run_incr_count;
  unfold ret, lands; eexists; split; [reflexivity|].

Section Outcome.
Variables (s : state) (v : Z) (r : ref) (rv : Z).
Variables (ls : list (ref * Z)) (rc : option (ref * Z)).
Variables (c0 : Shades) (l0 r0 : option ref).
Hypothesis H0 : heap s !! NIL_LEAF = Some (mkRBNode None c0 None l0 r0).
Hypothesis Hroot : root s = Some r.
Hypothesis Hshape : shape_at s r rv ls rc.


Lemma root_right_lands :
  rc = None -> rv < v ->
  lands (add_after v (r, Some "R"%string) s) (length (heap s))
        r rv ls (Some (length (heap s), v)).
Proof.
  intros Hrc Hlt. pose proof Hshape as (Hr & [col Hrec] & Hsp & _ & Hcnt).
  rewrite Hrc in Hrec, Hcnt. cbn [leaf_ref] in Hrec.
  pose proof (lookup_lt_Some _ _ _ Hrec) as Hrlt.
  pose proof (lookup_lt_Some _ _ _ H0) as H0lt.
  start_after.
  erewrite (run_bind (_try_rebalance _))
    by (eapply _try_rebalance_root_child;
        [store_lookup | reflexivity | store_lookup | reflexivity]).
  finish_lands.
  split; [|split].
  - exists c0, l0, r0. rewrite heap_bump. store_lookup.
  - cbn [root bump]. by rewrite root_upd, root_push, Hroot.
  - split; [done|]. split; [|split; [|split]].
    + exists col. rewrite heap_bump. store_lookup.
    + rewrite heap_bump. eapply spine_frame; [|exact Hsp].
      intros a av Hin. pose proof (spine_ref_lt s r rv ls rc Hshape a av Hin).
      pose proof (spine_ref_not_root s r rv ls rc Hshape a av Hin). store_lookup.
    + cbn [right_leaf]. rewrite heap_bump. split; [unfold NIL_LEAF in *; lia|].
      split; [done|]. store_lookup.
    + cbn [count bump]. rewrite count_upd, count_push. lia.
Qed.

Lemma root_left_lands :
  ls = [] -> v < rv ->
  lands (add_after v (r, Some "L"%string) s) (length (heap s))
        r rv [(length (heap s), v)] rc.
Proof.
  intros Hls Hlt. pose proof Hshape as (Hr & [col Hrec] & _ & Hleaf & Hcnt).
  rewrite Hls in Hrec, Hcnt. cbn [hd_ref] in Hrec.
  pose proof (lookup_lt_Some _ _ _ Hrec) as Hrlt.
  pose proof (lookup_lt_Some _ _ _ H0) as H0lt.
  start_after.
  erewrite (run_bind (_try_rebalance _))
    by (eapply _try_rebalance_root_child;
        [store_lookup | reflexivity | store_lookup | reflexivity]).
  finish_lands.
  split; [|split].
  - exists c0, l0, r0. rewrite heap_bump. store_lookup.
  - cbn [root bump]. by rewrite root_upd, root_push, Hroot.
  - split; [done|]. split; [|split; [|split]].
    + exists col. rewrite heap_bump. store_lookup.
    + rewrite heap_bump. cbn [spine hd_ref].
      split; [unfold NIL_LEAF in *; lia|]. split; [done|]. split; [|done].
      store_lookup.
    + rewrite heap_bump. destruct rc as [[c cv]|]; [|done].
      destruct Hleaf as (Hc & Hcv & Hcrec).
      pose proof (lookup_lt_Some _ _ _ Hcrec) as Hclt.
      assert (c <> r) by (intros ->; congruence).
      split; [done|]. split; [done|]. store_lookup.
    + cbn [count bump length]. rewrite count_upd, count_push.
      cbn [length] in Hcnt. lia.
Qed.

Lemma leaf_left_raises c cv :
  rc = Some (c, cv) -> v < cv ->
  exists s1, add_after v (c, Some "L"%string) s = (Raise TypeError, s1).
Proof.
  intros Hrc Hlt.
  pose proof Hshape as (Hr & [col Hrec] & Hsp & Hleaf & Hcnt).
  rewrite Hrc in Hrec, Hleaf. cbn [leaf_ref right_leaf] in Hrec, Hleaf.
  destruct Hleaf as (Hc & Hcv & Hcrec).
  pose proof (lookup_lt_Some _ _ _ Hrec) as Hrlt.
  pose proof (lookup_lt_Some _ _ _ Hcrec) as Hclt.
  pose proof (lookup_lt_Some _ _ _ H0) as H0lt.
  assert (c <> r) by (intros ->; congruence).
  eexists. start_after.
  erewrite run_bind_raise; [reflexivity|].
  eapply _try_rebalance_red_uncle with (u := c); try store_lookup.
  - eapply (RBNode_eq_leaf_spine s r rv ls rc c0 l0 r0 Hshape); try store_lookup.
    intros a av Hin. pose proof (spine_ref_lt s r rv ls rc Hshape a av Hin).
    assert (a <> c).
    { intros ->. destruct (spine_in _ _ _ _ _ _ _ Hsp Hin) as (_ & ? & ? & ? & E).
      rewrite Hcrec in E. injection E as ->. lia. }
    store_lookup.
  - cbn [left right]. by rewrite (proj2 (Z.ltb_lt v cv) Hlt).
Qed.

Lemma leaf_right_lands c cv :
  rc = Some (c, cv) -> cv < v -> ls = [] ->
  lands (add_after v (c, Some "R"%string) s) (length (heap s)) r rv [] None.
Proof.
  intros Hrc Hlt Els.
  pose proof Hshape as (Hr & [col Hrec] & Hsp & Hleaf & Hcnt).
  rewrite Hrc in Hrec, Hleaf, Hcnt. cbn [leaf_ref right_leaf] in Hrec, Hleaf.
  destruct Hleaf as (Hc & Hcv & Hcrec).
  pose proof (lookup_lt_Some _ _ _ Hrec) as Hrlt.
  pose proof (lookup_lt_Some _ _ _ Hcrec) as Hclt.
  pose proof (lookup_lt_Some _ _ _ H0) as H0lt.
  assert (c <> r) by (intros ->; congruence).
  start_after.
  rewrite Els in Hrec. cbn [hd_ref] in Hrec.
  edestruct (_try_rebalance_RR
               (upd c (with_right (Some (length (heap s)))
                         (mkRBNode (Some cv) RED (Some r)
                                   (Some NIL_LEAF) (Some NIL_LEAF)))
                 (push (mkRBNode (Some v) RED (Some c)
                                 (Some NIL_LEAF) (Some NIL_LEAF)) s))
               (length (heap s)) v)
    as (s2 & Hrun & Hcount & Hroot2 & Hlen & Hg & Hfr);
    [store_lookup | store_lookup | store_lookup | store_lookup
    | lia | done | done | lia | lia | done |].
  rewrite (run_bind _ _ _ _ _ Hrun). finish_lands.
  split; [|split].
  - exists c0, l0, r0. rewrite heap_bump, Hfr by done. store_lookup.
  - cbn [root bump]. by rewrite Hroot2, root_upd, root_push, Hroot.
  - split; [done|]. split; [|split; [|split]].
    + exists RED. rewrite heap_bump. exact Hg.
    + done.
    + done.
    + cbn [count bump length]. rewrite Hcount, count_upd, count_push. lia.
Qed.


Lemma leaf_right_raises c cv a av ls1 :
  rc = Some (c, cv) -> cv < v -> ls = (a, av) :: ls1 ->
  exists s1, add_after v (c, Some "R"%string) s = (Raise TypeError, s1).
Proof.
  intros Hrc Hlt Els.
  pose proof Hshape as (Hr & [col Hrec] & Hsp & Hleaf & Hcnt).
  rewrite Hrc in Hrec, Hleaf, Hcnt. cbn [leaf_ref right_leaf] in Hrec, Hleaf.
  destruct Hleaf as (Hc & Hcv & Hcrec).
  pose proof (lookup_lt_Some _ _ _ Hrec) as Hrlt.
  pose proof (lookup_lt_Some _ _ _ Hcrec) as Hclt.
  pose proof (lookup_lt_Some _ _ _ H0) as H0lt.
  assert (c <> r) by (intros ->; congruence).
  eexists. start_after.
  erewrite run_bind_raise; [reflexivity|].
  rewrite Els in Hsp, Hrec. cbn [hd_ref] in Hrec.
  pose proof Hsp as (Ha & Hav & Harec & _).
  pose proof (lookup_lt_Some _ _ _ Harec) as Halt.
  assert (a <> c) by (intros ->; rewrite Hcrec in Harec;
                      injection Harec as ->; lia).
  assert (a <> r) by (intros ->; congruence).
  eapply _try_rebalance_red_uncle with (u := a); try store_lookup.
  - replace (Some a) with (Some (hd_ref NIL_LEAF ls)) by (by rewrite Els).
    eapply (RBNode_eq_leaf_spine s r rv ls rc c0 l0 r0 Hshape); try store_lookup.
    intros b bv Hin. pose proof (spine_ref_lt s r rv ls rc Hshape b bv Hin).
    assert (b <> c).
    { intros ->. pose proof Hshape as (_ & _ & Hsp' & _).
      destruct (spine_in _ _ _ _ _ _ _ Hsp' Hin) as (_ & ? & ? & ? & E).
      rewrite Hcrec in E. injection E as ->. lia. }
    store_lookup.
  - cbn [left right]. by rewrite (proj2 (Z.ltb_ge v cv) ltac:(lia)).
Qed.

Lemma spine_right_raises l1 x xv l2 :
  ls = l1 ++ (x, xv) :: l2 -> xv < v ->
  exists s1, add_after v (x, Some "R"%string) s = (Raise TypeError, s1).
Proof.
  intros Els Hlt.
  pose proof Hshape as (Hr & [col Hrec] & Hsp & _).
  rewrite Els in Hrec, Hsp.
  destruct (spine_split _ _ _ _ _ _ _ _ _ Hrec Hr Hsp)
    as (Hx & Hxv & Hg0 & Hxg & Hxrec & gc & gp & gr & Hgrec & _).
  pose proof (lookup_lt_Some _ _ _ Hxrec) as Hxlt.
  pose proof (lookup_lt_Some _ _ _ Hgrec) as Hglt.
  pose proof (lookup_lt_Some _ _ _ H0) as H0lt.
  eexists. start_after.
  erewrite run_bind_raise; [reflexivity|].
  eapply _try_rebalance_red_uncle with (u := x); try store_lookup.
  - cbn [left]. eapply RBNode_eq_self; [store_lookup | store_lookup].
  - cbn [left right]. by rewrite (proj2 (Z.ltb_ge v xv) ltac:(lia)).
Qed.

Lemma spine_end_raises_exact p pv c cv :
  ls = [(p, pv)] -> rc = Some (c, cv) -> v < pv ->
  exists s1, add_after v (p, Some "L"%string) s = (Raise TypeError, s1).
Proof.
  intros Els Erc Hlt.
  pose proof Hshape as (Hr & [col Hrec] & Hsp & Hleaf & _).
  rewrite Els in Hrec, Hsp. rewrite Erc in Hrec, Hleaf.
  cbn [hd_ref leaf_ref] in Hrec.
  destruct Hsp as (Hp0 & Hpv & Hprec & _). cbn [hd_ref] in Hprec.
  destruct Hleaf as (Hc0 & Hcv & Hcrec).
  pose proof (lookup_lt_Some _ _ _ Hprec) as Hplt.
  pose proof (lookup_lt_Some _ _ _ Hcrec) as Hclt.
  pose proof (lookup_lt_Some _ _ _ Hrec) as Hrlt.
  pose proof (lookup_lt_Some _ _ _ H0) as H0lt.
  assert (p <> r) by (intros ->; congruence).
  assert (c <> p) by (intros ->; rewrite Hprec in Hcrec;
                      injection Hcrec as E; lia).
  eexists. start_after.
  erewrite run_bind_raise; [reflexivity|].
  eapply _try_rebalance_red_uncle with (u := c); try store_lookup.
  - cbn [left]. eapply RBNode_eq_self; [store_lookup | store_lookup].
  - cbn [left right]. by rewrite (proj2 (Z.ltb_lt v pv) Hlt).
Qed.

Lemma spine_end_lands l1 p pv gc gp :
  ls = l1 ++ [(p, pv)] -> v < pv ->
  heap s !! last_ref r l1 =
    Some (mkRBNode (Some (last_val rv l1)) gc gp (Some p) (Some NIL_LEAF)) ->
  (l1 = [] /\ rc = None) \/ (In (last_ref r l1, last_val rv l1) l1 /\ gc = RED) ->
  lands (add_after v (p, Some "L"%string) s) (length (heap s))
        r rv (ls ++ [(length (heap s), v)]) rc.
Proof.
  intros Els Hlt Hgrec Hk.
  pose proof Hshape as (Hr & [col Hrec] & Hsp & Hleaf & Hcnt).
  rewrite Els in Hrec, Hsp, Hcnt.
  destruct (spine_split _ _ _ _ _ _ _ _ _ Hrec Hr Hsp)
    as (Hp0 & Hpv & Hg0 & Hpg & Hprec & _).
  cbn [hd_ref] in Hprec.
  pose proof (lookup_lt_Some _ _ _ Hprec) as Hplt.
  pose proof (lookup_lt_Some _ _ _ Hgrec) as Hglt.
  pose proof (lookup_lt_Some _ _ _ Hrec) as Hrlt.
  pose proof (lookup_lt_Some _ _ _ H0) as H0lt.
  apply spine_app in Hsp as [Hsp1 _]. cbn [hd_ref] in Hsp1.
  start_after.
  edestruct (_try_rebalance_LL
               (upd p (with_left (Some (length (heap s)))
                         (mkRBNode (Some pv) RED (Some (last_ref r l1))
                                   (Some NIL_LEAF) (Some NIL_LEAF)))
                 (push (mkRBNode (Some v) RED (Some p)
                                 (Some NIL_LEAF) (Some NIL_LEAF)) s))
               (length (heap s)) v)
    as (s2 & Hrun & Hcount & Hroot2 & Hlen & Hnil2 & Hg2 & Hfr);
    [store_lookup | store_lookup | store_lookup | store_lookup
    | done | unfold NIL_LEAF in *; lia | done | lia |].
  rewrite (run_bind _ _ _ _ _ Hrun). finish_lands.
  assert (forall a, a <> NIL_LEAF -> a <> last_ref r l1 -> a <> p ->
                    (a < length (heap s))%nat ->
                    heap s2 !! a = heap s !! a) as Hold.
  { intros a ? ? ? ?. rewrite Hfr by done. store_lookup. }
  assert (forall a av, In (a, av) l1 -> heap s2 !! a = heap s !! a) as Hl1.
  { intros a av Hin.
    destruct (spine_in _ _ _ _ _ _ _ Hsp1 Hin) as (Ha0 & _ & pa & l & Harec).
    pose proof (spine_last_le _ _ _ _ _ _ _ Hsp1 Hin) as Hle.
    assert (a <> p) by (intros ->; rewrite Hprec in Harec;
                        injection Harec as ->; lia).
    destruct (decide (a = last_ref r l1)) as [->|Hag].
    - destruct Hk as [[-> _]|[_ ->]]; [done|]. by rewrite Hg2, Hgrec.
    - apply Hold; try done. eapply lookup_lt_Some; eauto. }
  split; [|split].
  - eexists _, _, _. rewrite heap_bump. exact Hnil2.
  - cbn [root bump]. by rewrite Hroot2, root_upd, root_push, Hroot.
  - split; [done|]. rewrite heap_bump. split; [|split; [|split]].
    + rewrite Els, <- app_assoc, hd_ref_app. cbn [app hd_ref].
      rewrite hd_ref_app in Hrec. cbn [hd_ref] in Hrec.
      destruct Hk as [[-> ->]|[Hin ->]].
      * cbn [hd_ref app last_ref rev] in *. exists RED.
        rewrite Hg2. rewrite Hrec in Hgrec. by injection Hgrec as _ <-.
      * exists col.
        assert (r <> last_ref r l1).
        { intros E. rewrite <- E in Hin.
          destruct (spine_in _ _ _ _ _ _ _ Hsp1 Hin) as (_ & ? & _).
          rewrite <- E in Hgrec. rewrite Hrec in Hgrec.
          injection Hgrec as E1. lia. }
        assert (r <> p) by (intros ->; congruence).
        by rewrite Hold.
    + rewrite Els. apply spine_app. split; [apply spine_app; split|].
      * cbn [hd_ref]. eapply spine_frame; [exact Hl1 | exact Hsp1].
      * cbn [spine hd_ref]. split; [done|]. split; [done|]. split; [|done].
        rewrite Hfr by done. store_lookup.
      * rewrite last_ref_snoc, last_val_snoc. cbn [spine hd_ref].
        split; [unfold NIL_LEAF in *; lia|]. split; [done|]. split; [|done].
        rewrite Hfr by (unfold NIL_LEAF in *; lia). store_lookup.
    + destruct (leaf_none_or_some rc) as [Erc|(c & cv & Erc)];
        rewrite Erc in *; [done|].
      destruct Hleaf as (Hc0 & Hcv & Hcrec). split; [done|]. split; [done|].
      destruct Hk as [[_ [=]]|[Hin ->]].
      destruct (spine_in _ _ _ _ _ _ _ Hsp1 Hin) as (_ & ? & _).
      rewrite Hold; [done | done | | | by eapply lookup_lt_Some].
      * intros ->. rewrite Hgrec in Hcrec. injection Hcrec as E. lia.
      * intros ->. rewrite Hprec in Hcrec. injection Hcrec as E. lia.
    + cbn [count bump]. rewrite Hcount, count_upd, count_push.
      rewrite Els, !length_app. rewrite length_app in Hcnt.
      cbn [length] in *. lia.
Qed.

End Outcome.

Lemma walk_snoc rv ls rc a v :
  walk rv (ls ++ [(a, v)]) rc = Some v :: walk rv ls rc.
Proof.
  unfold walk, spine_values. by rewrite map_app, rev_app_distr.
Qed.

Lemma walk_leaf rv ls a v :
  walk rv ls (Some (a, v)) = walk rv ls None ++ [Some v].
Proof. unfold walk. by rewrite <- app_assoc. Qed.

Lemma In_walk y rv ls rc :
  In (Some y) (walk rv ls rc) <->
  (exists a, In (a, y) ls) \/ y = rv \/ (exists c, rc = Some (c, y)).
Proof.
  unfold walk. rewrite in_app_iff, In_spine_values. cbn [In]. split.
  - intros [H|[[= ->]|H]]; [by left | by right; left |].
    destruct rc as [[c cv]|]; [|done]. destruct H as [[= ->]|[]]. eauto.
  - intros [H|[->|[c ->]]]; [by left | by right; left |].
    right. right. by left.
Qed.

(** All the ways [add] can go below the node the descent ends at, with the
    place of the value among those of the walk. *)
Lemma add_after_outcome s v r rv ls rc c0 l0 r0 :
  heap s !! NIL_LEAF = Some (mkRBNode None c0 None l0 r0) ->
  root s = Some r ->
  shape_at s r rv ls rc ->
  let out := add_after v (locate v r rv ls rc) s in
  let x := length (heap s) in
  let W := walk rv ls rc in
  (out = (Ret None, s) /\ In (Some v) W) \/
  (exists s1, out = (Raise TypeError, s1) /\
              ((exists y, In (Some y) W /\ y < v) \/ rc <> None)) \/
  (lands out x r rv (ls ++ [(x, v)]) rc /\
   forall y, In (Some y) W -> v < y) \/
  (rc = None /\ lands out x r rv ls (Some (x, v)) /\
   forall y, In (Some y) W -> y < v) \/
  (ls = [] /\ exists c cv, rc = Some (c, cv) /\ cv < v /\
                            lands out x r rv [] None).
Proof.
  intros H0 Hroot Hs out x W. subst x.
  assert (exists found, locate v r rv ls rc = found /\
                        out = add_after v found s) as (found & Hloc & ->)
    by eauto.
  unfold locate in Hloc.
  pose proof Hs as (Hr & [col Hrec] & Hsp & Hleaf & _).
  assert (forall y, In (Some y) W ->
            (exists a, In (a, y) ls /\ y < rv) \/ y = rv \/
            (exists c, rc = Some (c, y) /\ rv < y)) as HW.
  { intros y Hy. apply In_walk in Hy as [[a Ha]|[->|[c Hc]]].
    - left. exists a. split; [done|].
      by destruct (spine_in _ _ _ _ _ _ _ Hsp Ha) as (_ & ? & _).
    - by right; left.
    - right. right. exists c. split; [done|]. rewrite Hc in Hleaf.
      by destruct Hleaf as (_ & ? & _). }
  assert (In (Some rv) W) as Hrv by (apply In_walk; by right; left).
  destruct (Z.eqb_spec v rv) as [->|Hne]; [subst found; by left|].
  destruct (Z.ltb_spec v rv) as [Hlt|Hge].
  - destruct (spine_nil_or_cons ls) as [Els|(a & av & ls1 & Els)];
      rewrite Els in Hloc; subst found.
    + right. right. left. split.
      * rewrite Els. cbn [app]. eapply root_left_lands; eauto.
      * intros y Hy. destruct (HW y Hy) as [(b & Hb & _)|[->|(c & _ & ?)]];
          [|done|lia]. rewrite Els in Hb. destruct Hb.
    + destruct (descend_spec v ls1 a av)
        as [(l1 & y & yv & l2 & Heq & [[-> ->]|[Hyv ->]])|[Hlast ->]].
      * left. split; [done|]. apply In_walk. left. exists y.
        rewrite Els, Heq. apply in_or_app. right. by left.
      * right. left.
        destruct (spine_right_raises s v r rv ls rc c0 l0 r0 H0 Hs l1 y yv l2)
          as [s1 Hs1]; [by rewrite Els | exact Hyv |].
        exists s1. split; [done|]. left. exists yv. split; [|done].
        apply In_walk. left. exists y.
        rewrite Els, Heq. apply in_or_app. right. by left.
      * assert (exists l1 p pv, ls = l1 ++ [(p, pv)] /\ p = last_ref a ls1 /\
                                pv = last_val rv ls /\ v < pv)
          as (l1 & p & pv & Eend & <- & Epv & Hpv).
        { destruct ls1 as [|[b bv] ls1 _] using rev_ind.
          - exists [], a, av. by rewrite Els.
          - exists ((a, av) :: ls1), b, bv.
            rewrite last_ref_snoc. rewrite last_val_snoc in Hlast.
            rewrite Els, app_comm_cons, last_val_snoc. done. }
        assert (forall y, In (Some y) W -> v < y) as Hbelow.
        { intros y Hy. destruct (HW y Hy) as [(b & Hb & _)|[->|(c & _ & ?)]];
            [|done|lia].
          pose proof (spine_last_le _ _ _ _ _ _ _ Hsp Hb). lia. }
        rewrite Eend in Hrec, Hsp.
        destruct (spine_split _ _ _ _ _ _ _ _ _ Hrec Hr Hsp)
          as (_ & _ & _ & _ & _ & gc & gp & gr & Hgrec & Hk).
        destruct Hk as [(El1 & _ & _ & _ & ->)|(Hin & -> & ->)].
        -- destruct (leaf_none_or_some rc) as [Erc|(c & cv & Erc)].
           ++ right. right. left. split; [|done].
              eapply (spine_end_lands s v r rv ls rc c0 l0 r0 H0 Hroot Hs
                        l1 p pv gc gp Eend Hpv); [|by left].
              rewrite Erc in Hgrec. exact Hgrec.
           ++ right. left.
              destruct (spine_end_raises_exact s v r rv ls rc c0 l0 r0 H0 Hs
                          p pv c cv) as [s1 Hs1];
                [by rewrite Eend, El1 | exact Erc | exact Hpv |].
              exists s1. split; [done|]. right. by rewrite Erc.
        -- right. right. left. split; [|done].
           eapply (spine_end_lands s v r rv ls rc c0 l0 r0 H0 Hroot Hs
                     l1 p pv RED gp Eend Hpv); [exact Hgrec | by right].
  - assert (exists y, In (Some y) W /\ y < v) as Hbelow
      by (exists rv; split; [done | lia]).
    destruct (leaf_none_or_some rc) as [Erc|(c & cv & Erc)];
      rewrite Erc in Hloc.
    + subst found. right. right. right. left. split; [done|]. split.
      * eapply root_right_lands; eauto. lia.
      * intros y Hy. destruct (HW y Hy) as [(b & _ & ?)|[->|(c & Hc & _)]];
          [lia | lia | congruence].
    + cbn [descend] in Hloc.
      destruct (Z.eqb_spec v cv) as [->|Hnc].
      { subst found. left. split; [done|]. apply In_walk. right. right. eauto. }
      destruct (Z.ltb_spec v cv); subst found.
      * right. left.
        destruct (leaf_left_raises s v r rv ls rc c0 l0 r0 H0 Hs c cv)
          as [s1 Hs1]; [done | done |]. exists s1. split; [done | by left].
      * destruct (spine_nil_or_cons ls) as [Els|(a & av & ls1 & Els)].
        -- right. right. right. right. split; [done|]. exists c, cv.
           split; [done|]. split; [lia|].
           eapply leaf_right_lands; eauto. lia.
        -- right. left.
           destruct (leaf_right_raises s v r rv ls rc c0 l0 r0 H0 Hs
                       c cv a av ls1) as [s1 Hs1]; [done | lia | done |].
           exists s1. split; [done | by left].
Qed.

(** ** What a call of [add] does to the walk *)

Lemma add_at_shape s v r rv ls rc c0 l0 r0 fuel :
  heap s !! NIL_LEAF = Some (mkRBNode None c0 None l0 r0) ->
  root s = Some r ->
  shape_at s r rv ls rc ->
  add fuel v s = add_after v (locate v r rv ls rc) s \/
  (Z.of_nat fuel < count s /\ add fuel v s = (OutOfFuel, s)).
Proof.
  intros H0 Hr Hs. unfold add.
  rewrite (run_bind get_root _ s (root s) s eq_refl), Hr.
  destruct (_find_parent_shape s v r rv ls rc c0 l0 r0 H0 Hr Hs fuel)
    as [F|[Hlt F]].
  - left. by rewrite (run_bind _ _ _ _ _ F).
  - right. split; [done|]. unfold bind. by rewrite F.
Qed.

Lemma add_after_count v found s x s1 :
  add_after v found s = (Ret (Some x), s1) -> count s1 = count s + 1.
Proof.
  destruct found as [p [d|]]; [|discriminate]. intros H.
  destruct (add_after_course v p d s _ s1 H) as (s2 & Hst & [[_ ->]|[Hr _]]).
  - cbn. f_equal. apply (Hst _ (stable_count (count s))). reflexivity.
  - exfalso. by eapply Hr.
Qed.

Lemma lands_walk out x r rv ls rc x1 s1 fuel vs s2 :
  lands out x r rv ls rc ->
  out = (Ret (Some x1), s1) ->
  RedBlackTree_iter fuel s1 = (Ret vs, s2) ->
  vs = walk rv ls rc.
Proof.
  intros (s' & -> & (c0 & l0 & r0 & H0) & Hroot & Hs) [= _ ->] Hiter.
  destruct (RedBlackTree_iter_shape _ r rv ls rc c0 l0 r0 fuel H0 Hroot Hs)
    as [E|E]; rewrite E in Hiter; [|discriminate].
  by injection Hiter as <- _.
Qed.

(** X12.  A call of [add] that returns a node changes the in-order walk in
    one of three ways: the value is put in front of a walk whose values are
    all larger, or behind a walk whose values are all smaller, or a walk of
    two values, both smaller, loses its second value and does not get the
    new one. *)
Theorem add_changes_walk_at_an_end s v fuel x s1 fuel1 vs s2 fuel2 vs1 s3 :
  returned s ->
  add fuel v s = (Ret (Some x), s1) ->
  RedBlackTree_iter fuel1 s = (Ret vs, s2) ->
  RedBlackTree_iter fuel2 s1 = (Ret vs1, s3) ->
  (vs1 = Some v :: vs /\ forall y, In (Some y) vs -> v < y) \/
  (vs1 = vs ++ [Some v] /\ forall y, In (Some y) vs -> y < v) \/
  (exists a b, vs = [Some a; Some b] /\ vs1 = [Some a] /\ b < v).
Proof.
  intros Hret Hadd Hit1 Hit2.
  destruct (returned_walk s fuel1 vs s2 Hret Hit1)
    as (_ & [(Hnone & _)|(r & rv & ls & rc & Hr & Hs & ->)]).
  { unfold add in Hadd.
    rewrite (run_bind get_root _ s (root s) s eq_refl), Hnone in Hadd.
    cbn in Hadd. discriminate. }
  destruct (returned_shape s Hret) as [(c0 & l0 & r0 & H0) _].
  destruct (add_at_shape s v r rv ls rc c0 l0 r0 fuel H0 Hr Hs) as [E|[_ E]];
    rewrite E in Hadd; [|discriminate].
  pose proof (add_after_outcome s v r rv ls rc c0 l0 r0 H0 Hr Hs) as Hout.
  cbv zeta in Hout.
  destruct Hout as [[E1 _]|[(s' & E1 & _)|[[L Hb]|[(Erc & L & Hb)|
                    (Els & c & cv & Erc & Hcv & L)]]]].
  - rewrite E1 in Hadd. discriminate.
  - rewrite E1 in Hadd. discriminate.
  - left. split; [|exact Hb].
    rewrite (lands_walk _ _ _ _ _ _ _ _ _ _ _ L Hadd Hit2). apply walk_snoc.
  - right. left. split; [|exact Hb].
    rewrite (lands_walk _ _ _ _ _ _ _ _ _ _ _ L Hadd Hit2), Erc.
    apply walk_leaf.
  - right. right. exists rv, cv.
    rewrite (lands_walk _ _ _ _ _ _ _ _ _ _ _ L Hadd Hit2), Els, Erc. done.
Qed.

Lemma add_changes_walk_at_an_end_witness :
  let s := snd (add_all 2 [10; 20] init) in
  let s1 := snd (add 2 30 s) in
  returned s /\
  add 2 30 s = (Ret (Some 3%nat), s1) /\
  RedBlackTree_iter 2 s = (Ret [Some 10; Some 20], s) /\
  RedBlackTree_iter 2 s1 = (Ret [Some 10], s1) /\
  ((([Some 10] : list (option Z)) = Some 30 :: [Some 10; Some 20] /\
    forall y, In (Some y) [Some 10; Some 20] -> 30 < y) \/
   (([Some 10] : list (option Z)) = [Some 10; Some 20] ++ [Some 30] /\
    forall y, In (Some y) [Some 10; Some 20] -> y < 30) \/
   (exists a b, [Some 10; Some 20] = [Some a; Some b] /\
                ([Some 10] : list (option Z)) = [Some a] /\ b < 30)).
Proof.
  intros s s1.
  assert (returned s) as Hret.
  { apply (add_all_returned 2 [10; 20] init [None; Some 2%nat] s returned_init).
    reflexivity. }
  assert (add 2 30 s = (Ret (Some 3%nat), s1)) as Hadd by reflexivity.
  assert (RedBlackTree_iter 2 s = (Ret [Some 10; Some 20], s)) as Hit1
    by reflexivity.
  assert (RedBlackTree_iter 2 s1 = (Ret [Some 10], s1)) as Hit2
    by reflexivity.
  split; [exact Hret|]. split; [exact Hadd|]. split; [exact Hit1|].
  split; [exact Hit2|].
  exact (add_changes_walk_at_an_end s 30 2 _ s1 2 _ s 2 _ s1
           Hret Hadd Hit1 Hit2).
Defined.

(** X13.  On a tree built by calls that returned, a value that is not in
    the walk and lies between two values of the walk cannot be inserted:
    [add] raises [TypeError]. *)
Theorem add_between_walked_values_raises s v fuel fuel1 vs s1 a b :
  returned s ->
  count s <= Z.of_nat fuel ->
  RedBlackTree_iter fuel1 s = (Ret vs, s1) ->
  In (Some a) vs -> In (Some b) vs ->
  a < v < b ->
  ~ In (Some v) vs ->
  fst (add fuel v s) = Raise TypeError.
Proof.
  intros Hret Hfuel Hiter Ha Hb Hab Hv.
  destruct (returned_walk s fuel1 vs s1 Hret Hiter)
    as (_ & [(_ & ->)|(r & rv & ls & rc & Hr & Hs & ->)]); [destruct Ha|].
  destruct (returned_shape s Hret) as [(c0 & l0 & r0 & H0) _].
  destruct (add_at_shape s v r rv ls rc c0 l0 r0 fuel H0 Hr Hs) as [E|[Hlt _]];
    [rewrite E | lia].
  pose proof (add_after_outcome s v r rv ls rc c0 l0 r0 H0 Hr Hs) as Hout.
  cbv zeta in Hout.
  destruct Hout as [[_ Hin]|[(s' & E1 & _)|[[_ Hbelow]|[(_ & _ & Habove)|
                    (Els & c & cv & Erc & Hcv & _)]]]].
  - done.
  - by rewrite E1.
  - specialize (Hbelow a Ha). lia.
  - specialize (Habove b Hb). lia.
  - exfalso. destruct Hs as (_ & _ & _ & Hleaf & _).
    rewrite Erc in Hleaf. destruct Hleaf as (_ & Hlt & _).
    apply In_walk in Hb as [[y Hy]|[->|[c' Hc']]].
    + rewrite Els in Hy. destruct Hy.
    + lia.
    + rewrite Erc in Hc'. injection Hc' as _ ->. lia.
Qed.

Lemma add_between_walked_values_raises_witness :
  let s := snd (add_all 2 [10; 30] init) in
  returned s /\ count s <= Z.of_nat 2 /\
  RedBlackTree_iter 2 s = (Ret [Some 10; Some 30], s) /\
  fst (add 2 20 s) = Raise TypeError.
Proof.
  intros s.
  assert (returned s) as Hret.
  { apply (add_all_returned 2 [10; 30] init [None; Some 2%nat] s returned_init).
    reflexivity. }
  assert (count s <= Z.of_nat 2) as Hfuel by (vm_compute; discriminate).
  assert (RedBlackTree_iter 2 s = (Ret [Some 10; Some 30], s)) as Hiter
    by reflexivity.
  split; [exact Hret|]. split; [exact Hfuel|]. split; [exact Hiter|].
  apply (add_between_walked_values_raises s 20 2 2 _ s 10 30 Hret Hfuel Hiter).
  - by left.
  - right. by left.
  - lia.
  - intros [[=]|[[=]|[]]].
Defined.

(** ** The walk comes to an end *)

Lemma RBNode_iter_spine_enough s c0 l0 r0 ls : forall a av p pv fuel,
  heap s !! NIL_LEAF = Some (mkRBNode None c0 None l0 r0) ->
  spine (heap s) p pv ((a, av) :: ls) NIL_LEAF ->
  (length ls < fuel)%nat ->
  RBNode_iter fuel a s = (Ret (spine_values ((a, av) :: ls)), s).
Proof.
  induction ls as [|[b bv] ls IH]; intros a av p pv fuel H0 Hsp Hfuel;
    (destruct fuel as [|fuel]; [cbn [length] in Hfuel; lia|]);
    destruct Hsp as (Ha & Hav & Hrec & Hsp); cbn [RBNode_iter hd_ref] in *; run.
  - reflexivity.
  - pose proof Hsp as (Hb & Hbv & Hrecb & _). run.
    rewrite (run_bind _ _ _ _ _ (IH b bv a av fuel H0 Hsp
                                    ltac:(cbn [length] in Hfuel; lia))).
    run. unfold spine_values. cbn [map rev snd]. reflexivity.
Qed.

Lemma RedBlackTree_iter_enough s r rv ls rc c0 l0 r0 fuel :
  heap s !! NIL_LEAF = Some (mkRBNode None c0 None l0 r0) ->
  root s = Some r -> shape_at s r rv ls rc ->
  (length ls + 1 < fuel)%nat ->
  RedBlackTree_iter fuel s = (Ret (walk rv ls rc), s).
Proof.
  intros H0 Hroot Hs Hfuel.
  destruct (RedBlackTree_iter_shape s r rv ls rc c0 l0 r0 fuel H0 Hroot Hs)
    as [E|E]; [exact E|]. exfalso. revert E.
  destruct Hs as (Hr & [col Hrec] & Hsp & Hleaf & _).
  unfold RedBlackTree_iter.
  rewrite (run_bind get_root _ s (root s) s eq_refl), Hroot.
  destruct fuel as [|fuel]; [lia|]. cbn [RBNode_iter]. run.
  destruct ls as [|[a av] ls]; cbn [hd_ref] in *; run.
  - destruct rc as [[c cv]|]; cbn [leaf_ref] in *; run; [|discriminate].
    destruct Hleaf as (Hc & Hcv & Hcrec). run.
    rewrite (run_bind _ _ _ _ _
               (RBNode_iter_spine_enough s _ _ _ [] c cv r (cv + 1) fuel H0
                  ltac:(cbn [spine hd_ref]; split; [done|]; split; [lia|];
                        split; done)
                  ltac:(cbn [length] in *; lia))).
    discriminate.
  - pose proof Hsp as (_ & _ & Harec & _). run.
    rewrite (run_bind _ _ _ _ _
               (RBNode_iter_spine_enough s _ _ _ ls a av r rv fuel H0 Hsp
                  ltac:(cbn [length] in *; lia))).
    run.
    destruct rc as [[c cv]|]; cbn [leaf_ref] in *; run; [|discriminate].
    destruct Hleaf as (Hc & Hcv & Hcrec). run.
    rewrite (run_bind _ _ _ _ _
               (RBNode_iter_spine_enough s _ _ _ [] c cv r (cv + 1) fuel H0
                  ltac:(cbn [spine hd_ref]; split; [done|]; split; [lia|];
                        split; done)
                  ltac:(cbn [length] in *; lia))).
    discriminate.
Qed.

(** X14.  On a tree built by calls that returned, the in-order walk comes
    to an end within a recursion depth of [count + 1], yields a list and
    leaves the tree as it was. *)
Theorem walk_returns s fuel :
  returned s ->
  count s < Z.of_nat fuel ->
  exists vs, RedBlackTree_iter fuel s = (Ret vs, s).
Proof.
  intros Hret Hfuel.
  destruct (returned_shape s Hret) as [(c0 & l0 & r0 & H0) Hs].
  destruct (root s) as [r|] eqn:Hroot.
  - destruct Hs as (rv & ls & rc & Hs). exists (walk rv ls rc).
    eapply RedBlackTree_iter_enough; eauto.
    destruct Hs as (_ & _ & _ & _ & Hcnt).
    destruct rc as [[c cv]|]; lia.
  - exists []. unfold RedBlackTree_iter.
    by rewrite (run_bind get_root _ s (root s) s eq_refl), Hroot.
Qed.

Lemma walk_returns_witness :
  let s := snd (add_all 3 [30; 20; 10; 40] init) in
  returned s /\ count s < Z.of_nat 5 /\
  exists vs, RedBlackTree_iter 5 s = (Ret vs, s).
Proof.
  intros s.
  assert (returned s) as Hret.
  { apply (add_all_returned 3 [30; 20; 10; 40] init
             [None; Some 2%nat; Some 3%nat; Some 4%nat] s returned_init).
    reflexivity. }
  assert (count s < Z.of_nat 5) as Hfuel by (vm_compute; reflexivity).
  split; [exact Hret|]. split; [exact Hfuel|].
  exact (walk_returns s 5 Hret Hfuel).
Defined.

(** ** Values inserted in decreasing order *)

Lemma add_all_descending fuel vs : forall s r rv ls,
  nil_plain (heap s) ->
  root s = Some r ->
  shape_at s r rv ls None ->
  StronglySorted Z.gt vs ->
  (forall w y, In w vs -> In (Some y) (walk rv ls None) -> w < y) ->
  count s + Z.of_nat (length vs) <= Z.of_nat fuel ->
  exists xs s1 ls1,
    add_all fuel vs s = (Ret xs, s1) /\
    nil_plain (heap s1) /\ root s1 = Some r /\
    shape_at s1 r rv (ls ++ ls1) None /\
    map snd ls1 = vs /\
    count s1 = count s + Z.of_nat (length vs).
Proof.
  induction vs as [|v vs IH]; intros s r rv ls Hnil Hr Hs Hsorted Hbelow Hfuel.
  - exists [], s, []. rewrite app_nil_r. cbn [length map add_all].
    split; [done|]. split; [done|]. split; [done|]. split; [done|].
    split; [done|]. lia.
  - apply StronglySorted_inv in Hsorted as [Hsorted Hv].
    rewrite Forall_forall in Hv.
    pose proof Hnil as (c0 & l0 & r0 & H0).
    cbn [length] in Hfuel.
    destruct (add_at_shape s v r rv ls None c0 l0 r0 fuel H0 Hr Hs)
      as [E|[Hlt _]]; [|lia].
    pose proof (add_after_outcome s v r rv ls None c0 l0 r0 H0 Hr Hs) as Hout.
    cbv zeta in Hout.
    assert (v < rv) as Hvrv.
    { apply Hbelow; [by left|]. apply In_walk. right. by left. }
    destruct Hout as [[_ Hin]|[(s' & _ & [(y & Hy & Hlt)|Hrc])|[[L _]|
                      [(_ & _ & Habove)|(_ & c & cv & [=] & _)]]]].
    + specialize (Hbelow v v ltac:(by left) Hin). lia.
    + specialize (Hbelow v y ltac:(by left) Hy). lia.
    + done.
    + destruct L as (s1 & Eout & Hnil1 & Hr1 & Hs1).
      pose proof (add_after_count _ _ _ _ _ Eout) as Hcnt.
      destruct (IH s1 r rv (ls ++ [(length (heap s), v)]) Hnil1 Hr1 Hs1 Hsorted)
        as (xs & s2 & ls1 & Eall & Hnil2 & Hr2 & Hs2 & Hmap & Hcnt2).
      * intros w y Hw Hy. rewrite walk_snoc in Hy.
        destruct Hy as [[= <-]|Hy].
        -- specialize (Hv w ltac:(by apply list_elem_of_In)). lia.
        -- apply Hbelow; [by right | done].
      * lia.
      * exists (Some (length (heap s)) :: xs), s2,
          ((length (heap s), v) :: ls1).
        cbn [add_all]. rewrite E, Eout, Eall.
        rewrite <- app_assoc in Hs2. cbn [app] in Hs2.
        cbn [map snd length]. rewrite Hmap.
        split; [done|]. split; [done|]. split; [done|]. split; [done|].
        split; [done|]. lia.
    + specialize (Habove rv ltac:(apply In_walk; right; by left)). lia.
Qed.

(** X15.  Values inserted in strictly decreasing order into a fresh tree are
    all kept: every call returns, [count] is the number of values, and the
    in-order walk yields the values in increasing order. *)
Theorem descending_adds_round_trip fuel fuel1 vs :
  StronglySorted Z.gt vs ->
  (length vs <= fuel)%nat ->
  (length vs < fuel1)%nat ->
  exists xs s,
    add_all fuel vs init = (Ret xs, s) /\
    count s = Z.of_nat (length vs) /\
    RedBlackTree_iter fuel1 s = (Ret (map Some (rev vs)), s).
Proof.
  intros Hsorted Hfuel Hfuel1. destruct vs as [|v vs].
  { exists [], init. done. }
  apply StronglySorted_inv in Hsorted as [Hsorted Hv].
  rewrite Forall_forall in Hv. cbn [length] in *.
  set (s0 := mkState [NIL_LEAF_object;
                      mkRBNode (Some v) BLACK None (Some NIL_LEAF)
                               (Some NIL_LEAF)] 1 (Some 1%nat)).
  assert (add fuel v init = (Ret None, s0)) as E0 by reflexivity.
  assert (nil_plain (heap s0)) as Hnil by (by exists BLACK, None, None).
  assert (shape_at s0 1%nat v [] None) as Hs0.
  { split; [done|]. split; [by exists BLACK|]. cbn. split; [done|].
    split; [done | lia]. }
  destruct (add_all_descending fuel vs s0 1%nat v [] Hnil eq_refl Hs0 Hsorted)
    as (xs & s & ls & Eall & (c0 & l0 & r0 & H0) & Hr & Hs & Hmap & Hcnt).
  - intros w y Hw Hy. apply In_walk in Hy as [[a []]|[->|[c [=]]]].
    specialize (Hv w ltac:(by apply list_elem_of_In)). lia.
  - cbn [count s0]. lia.
  - exists (None :: xs), s. cbn [add_all]. rewrite E0, Eall.
    split; [done|]. split; [rewrite Hcnt; cbn [count s0]; lia|].
    cbn [app] in Hs.
    rewrite (RedBlackTree_iter_enough s 1%nat v ls None c0 l0 r0 fuel1 H0 Hr Hs)
      by (rewrite <- Hmap in Hfuel1; rewrite length_map in Hfuel1; lia).
    f_equal. f_equal. unfold walk, spine_values. rewrite <- Hmap.
    cbn [rev]. rewrite map_app, map_rev, map_map. reflexivity.
Qed.

Lemma descending_adds_round_trip_witness :
  StronglySorted Z.gt [30; 20; 10] /\
  (length [30; 20; 10] <= 3)%nat /\
  (length [30; 20; 10] < 4)%nat /\
  exists xs s,
    add_all 3 [30; 20; 10] init = (Ret xs, s) /\
    count s = Z.of_nat (length [30; 20; 10]) /\
    RedBlackTree_iter 4 s = (Ret (map Some (rev [30; 20; 10])), s).
Proof.
  assert (StronglySorted Z.gt [30; 20; 10]) as Hsorted
    by (repeat (constructor; try reflexivity)).
  assert (length [30; 20; 10] <= 3)%nat as Hfuel by (cbn; lia).
  assert (length [30; 20; 10] < 4)%nat as Hfuel1 by (cbn; lia).
  split; [exact Hsorted|]. split; [exact Hfuel|]. split; [exact Hfuel1|].
  exact (descending_adds_round_trip 3 4 [30; 20; 10] Hsorted Hfuel Hfuel1).
Defined.

(** ** Exceptions of [add] *)

(** X16.  On a tree built by calls that returned, the only exception [add]
    raises is [TypeError]: the [NotImplementedError] and [ValueError] of
    [_try_rebalance] are never reached, and no attribute of [None] is
    read. *)
Theorem add_raises_only_TypeError s v fuel e s1 :
  returned s ->
  add fuel v s = (Raise e, s1) ->
  e = TypeError.
Proof.
  intros Hret Hadd.
  destruct (returned_shape s Hret) as [(c0 & l0 & r0 & H0) Hs].
  destruct (root s) as [r|] eqn:Hr.
  - destruct Hs as (rv & ls & rc & Hs).
    destruct (add_at_shape s v r rv ls rc c0 l0 r0 fuel H0 Hr Hs) as [E|[_ E]];
      rewrite E in Hadd; [|discriminate].
    pose proof (add_after_outcome s v r rv ls rc c0 l0 r0 H0 Hr Hs) as Hout.
    cbv zeta in Hout.
    destruct Hout as [[E1 _]|[(s' & E1 & _)|[[L _]|[(_ & L & _)|
                      (_ & c & cv & _ & _ & L)]]]];
      try (destruct L as (s' & E1 & _)); rewrite E1 in Hadd;
      by injection Hadd.
  - unfold add in Hadd.
    rewrite (run_bind get_root _ s (root s) s eq_refl), Hr in Hadd.
    cbn in Hadd. discriminate.
Qed.

Lemma add_raises_only_TypeError_witness :
  let s := snd (add_all 2 [10; 30] init) in
  returned s /\
  add 2 20 s = (Raise TypeError, snd (add 2 20 s)) /\
  TypeError = TypeError.
Proof.
  intros s.
  assert (returned s) as Hret.
  { apply (add_all_returned 2 [10; 30] init [None; Some 2%nat] s returned_init).
    reflexivity. }
  assert (add 2 20 s = (Raise TypeError, snd (add 2 20 s))) as Hadd
    by reflexivity.
  split; [exact Hret|]. split; [exact Hadd|].
  exact (add_raises_only_TypeError s 20 2 _ _ Hret Hadd).
Defined.

(** ** The rotations *)

(** X17.  Neither rotation writes a [value], a [parent] link, [root] or
    [count], whatever nodes it is called with: after the call every object
    of the store holds the value and the parent it held before. *)
Theorem rotations_keep_value_parent_root A X B Y C t s a n :
  heap s !! a = Some n ->
  let s1 := snd (_right_rotation A X B Y C t s) in
  let s2 := snd (_left_rotation A X B Y C t s) in
  ((exists n1, heap s1 !! a = Some n1 /\
               value n1 = value n /\ parent n1 = parent n) /\
   root s1 = root s /\ count s1 = count s) /\
  ((exists n2, heap s2 !! a = Some n2 /\
               value n2 = value n /\ parent n2 = parent n) /\
   root s2 = root s /\ count s2 = count s).
Proof.
  intros Ha s1 s2. split; (split; [|split]).
  - apply (stable__right_rotation _ (stable_node a (value n) (parent n))).
    by exists n.
  - by apply (stable__right_rotation _ (stable_root (root s))).
  - by apply (stable__right_rotation _ (stable_count (count s))).
  - apply (stable__left_rotation _ (stable_node a (value n) (parent n))).
    by exists n.
  - by apply (stable__left_rotation _ (stable_root (root s))).
  - by apply (stable__left_rotation _ (stable_count (count s))).
Qed.

Lemma rotations_keep_value_parent_root_witness :
  let s := snd (add_all 2 [30; 20] init) in
  let s1 := snd (_right_rotation (Some NIL_LEAF) (Some 2%nat) (Some NIL_LEAF)
                                 (Some 1%nat) (Some NIL_LEAF) None s) in
  let s2 := snd (_left_rotation (Some NIL_LEAF) (Some 2%nat) (Some NIL_LEAF)
                                (Some 1%nat) (Some NIL_LEAF) None s) in
  heap s !! 2%nat = Some (mkRBNode (Some 20) RED (Some 1%nat)
                                   (Some NIL_LEAF) (Some NIL_LEAF)) /\
  heap s1 !! 2%nat = Some (mkRBNode (Some 20) RED (Some 1%nat)
                                    (Some NIL_LEAF) (Some 1%nat)) /\
  ((exists n1, heap s1 !! 2%nat = Some n1 /\
               value n1 = Some 20 /\ parent n1 = Some 1%nat) /\
   root s1 = root s /\ count s1 = count s) /\
  ((exists n2, heap s2 !! 2%nat = Some n2 /\
               value n2 = Some 20 /\ parent n2 = Some 1%nat) /\
   root s2 = root s /\ count s2 = count s).
Proof.
  intros s s1 s2.
  assert (heap s !! 2%nat = Some (mkRBNode (Some 20) RED (Some 1%nat)
                                   (Some NIL_LEAF) (Some NIL_LEAF))) as Hn
    by reflexivity.
  split; [exact Hn|]. split; [reflexivity|].
  exact (rotations_keep_value_parent_root
           (Some NIL_LEAF) (Some 2%nat) (Some NIL_LEAF) (Some 1%nat)
           (Some NIL_LEAF) None s 2%nat _ Hn).
Defined.
